(** * zod-web-api: the path parser, the record builder and the request adapters

    A shallow embedding of [main.ts]: [getPaths], [formatPaths], [setValue],
    [toRecord], [safeParseJSON], [containsFormData], the three [parse...Async]
    adapters and the transformers [zt.json] and [zt.findBy].

    Modelling decisions, stated once:
    - a JavaScript string is a [string]; [\w] and [\d] are the ASCII classes
      the pattern of [getPaths] uses (it has no [u] flag);
    - [Number(digits)] is the natural number the digits denote, which is what
      JavaScript computes as long as the value is at most [2^53]; beyond it
      JavaScript rounds.  A segment is [exact] when its index is within that
      bound; the loop of [setValue] leaves the model at a segment that is
      not, and every theorem that depends on the value of an index carries
      the bound as a hypothesis;
    - an object holds its own data properties, a finite map from property
      keys to values; an array holds its list of elements (with holes) and
      its own named properties.  What else [pointer[key]] can reach is given
      by the platform, a [Host]: a data member inherited from a prototype
      (such as [toString]) is read through the prototype and shadowed by an
      assignment; an accessor or exotic member (such as [__proto__] or the
      [length] of an array) and the properties of a built-in object are
      outside the model, and a run that touches one ends as [Unmodelled].
      A key is [ordinary] when it names no member of the platform, and the
      theorems about the record say where they need it;
    - the record is a tree: what [setValue] creates and what [JSON.parse]
      returns is fresh, and a [File] is taken to occur once in a payload, so
      no two slots share an object and in-place assignment is modelled by
      rebuilding the path to the slot;
    - the module is an ES module, hence strict: assigning a property of a
      primitive throws;
    - [JSON.parse] and the Zod schema belong to the platform and are
      parameters of the development. *)

From Stdlib Require Import Ascii String Floats DecimalString DecimalN.
From stdpp Require Import base strings gmap list option.

Local Open Scope string_scope.
Local Open Scope list_scope.

#[local] Arguments String.append !s1 s2 /.

(** ** Strings *)

Definition is_digit (c : ascii) : bool :=
  let n := Ascii.N_of_ascii c in ((48 <=? n) && (n <=? 57))%N.

(** [\w] is [[A-Za-z0-9_]]. *)
Definition is_word (c : ascii) : bool :=
  let n := Ascii.N_of_ascii c in
  (((65 <=? n) && (n <=? 90)) || ((97 <=? n) && (n <=? 122))
   || ((48 <=? n) && (n <=? 57)) || (n =? 95))%N.

(** The longest prefix of [s] whose characters satisfy [p], and the rest. *)
Fixpoint span (p : ascii → bool) (s : string) : string * string :=
  match s with
  | "" => ("", "")
  | String c s' =>
      if p c then let '(w, r) := span p s' in (String c w, r) else ("", s)
  end.

Fixpoint string_forall (p : ascii → bool) (s : string) : bool :=
  match s with
  | "" => true
  | String c s' => p c && string_forall p s'
  end.

(** The string holds no dot. *)
Definition no_dot (t : string) : bool :=
  string_forall (fun c => negb (Ascii.eqb c ".")) t.

(** [name.split(".")]: always at least one token. *)
Fixpoint split_dot (s : string) : list string :=
  match s with
  | "" => [""]
  | String c s' =>
      if Ascii.eqb c "." then "" :: split_dot s'
      else match split_dot s' with
           | t :: ts => String c t :: ts
           | [] => [String c ""]
           end
  end.

(** [haystack.includes(needle)]. *)
Fixpoint includes (haystack needle : string) : bool :=
  String.prefix needle haystack
  || match haystack with
     | "" => false
     | String _ h' => includes h' needle
     end.

(** ** Path segments *)

(** An element of [Array<string | number>]. *)
Inductive pathseg : Type :=
  | PName (s : string)
  | PIndex (n : N).

Global Instance pathseg_eq_dec : EqDecision pathseg.
Proof. solve_decision. Defined.

(** [typeof path === "number"]. *)
Definition is_number (p : pathseg) : bool :=
  match p with PIndex _ => true | PName _ => false end.

(** [Number(d)] for a string [d] of decimal digits ([matches[2]] is one):
    the number the digits denote.  JavaScript computes that number when it
    is at most [2^53] and rounds it beyond; an index beyond the bound
    stands for a number the model does not know, and what depends on the
    value of an index is stated within the bound. *)
Definition Number (d : string) : N :=
  match NilEmpty.uint_of_string d with
  | Some u => N.of_uint u
  | None => 0%N
  end.

(** The decimal numeral a number of at most [2^53] is printed as, in a
    template literal and as a property key. *)
Definition number_to_string (n : N) : string :=
  NilZero.string_of_uint (N.to_uint n).

(** ** The pattern of getPaths: a run of word characters (group 1, may be
    empty), an opening bracket, one or more digits (group 2), a closing
    bracket; not anchored. *)

(** A match of the pattern starting at the first character of [s]: the two
    groups.  Both quantifiers are greedy; since [\w] excludes the bracket
    that must follow it and [\d] the one that must follow the digits, only
    the longest runs can lead to a match, so backtracking finds nothing more
    (lemma [match_here_spec]). *)
Definition match_here (s : string) : option (string * string) :=
  let '(w, r) := span is_word s in
  match r with
  | String "[" r1 =>
      let '(d, r2) := span is_digit r1 in
      match d, r2 with
      | String _ _, String "]" _ => Some (w, d)
      | _, _ => None
      end
  | _ => None
  end.

(** [pattern.exec(key)]: the groups of the leftmost match, if any. *)
Fixpoint pattern_exec (s : string) : option (string * string) :=
  match match_here s with
  | Some m => Some m
  | None =>
      match s with
      | "" => None
      | String _ s' => pattern_exec s'
      end
  end.

(** ** getPaths and formatPaths *)

(** The callback of [flatMap] in [getPaths]. *)
Definition token_paths (key : string) : list pathseg :=
  match pattern_exec key with
  | None => [PName key]
  | Some (m1, m2) =>
      if decide (m1 = "") then [PIndex (Number m2)]
      else [PName m1; PIndex (Number m2)]
  end.

Definition getPaths (name : string) : list pathseg :=
  if decide (name = "") then []
  else flat_map token_paths (split_dot name).

(** The reducer of [formatPaths]. *)
Definition format_step (name : string) (path : pathseg) : string :=
  match path with
  | PIndex n => name +:+ "[" +:+ number_to_string n +:+ "]"
  | PName p =>
      if bool_decide (name = "") || bool_decide (p = "") then name +:+ p
      else name +:+ "." +:+ p
  end.

Definition formatPaths (paths : list pathseg) : string :=
  fold_left format_step paths "".

(** ** Values *)

(** A JavaScript value as [toRecord] meets it: what [JSON.parse] returns, a
    [File] of a form, the containers [setValue] creates, and the objects of
    the platform that a key can reach through a prototype (a built-in
    function such as [Object.prototype.toString], known here by its name
    only).  A hole of an array is [None]; an element that was set, even to
    [undefined], is [Some]. *)
#[warnings="-register-all"]
Inductive value : Type :=
  | VUndefined
  | VNull
  | VBool (b : bool)
  | VNum (x : float)
  | VStr (s : string)
  | VObject (props : gmap string value)
  | VArray (elems : list (option value)) (props : gmap string value)
  | VFile (name : string) (size : N) (props : gmap string value)
  | VBuiltin (name : string).

(** What a failing operation throws.  [Unmodelled] is not an error of the
    program: it ends a run that leaves what this development describes (an
    accessor or exotic member, a property of a built-in object, an index
    beyond [2^53]).  Nothing is claimed about such a run: the code may
    well return a value where the model says [Throw Unmodelled]. *)
Inductive error : Type :=
  | TypeError
  | RangeError
  | ZodError
  | Unmodelled.

Inductive result (A : Type) : Type :=
  | Ok (a : A)
  | Throw (e : error).
Arguments Ok {A} a.
Arguments Throw {A} e.

Definition bind {A B} (m : result A) (k : A → result B) : result B :=
  match m with
  | Ok a => k a
  | Throw e => Throw e
  end.

Notation "'let*' x := m 'in' k" := (bind m (fun x => k))
  (at level 10, x name, m at level 100, k at level 200).

(** [!v] is [negb (truthy v)]: the falsy values are [undefined], [null],
    [false], both zeros, [NaN] and the empty string. *)
Definition truthy (v : value) : bool :=
  match v with
  | VUndefined | VNull => false
  | VBool b => b
  | VNum x => negb (PrimFloat.eqb x 0 || PrimFloat.is_nan x)
  | VStr s => negb (bool_decide (s = ""))
  | VObject _ | VArray _ _ | VFile _ _ _ | VBuiltin _ => true
  end.

(** [v == null]. *)
Definition nullish (v : value) : bool :=
  match v with
  | VUndefined | VNull => true
  | _ => false
  end.

(** [a ?? b]. *)
Definition coalesce (a b : value) : value := if nullish a then b else a.

(** [Array.isArray(v)]. *)
Definition isArray (v : value) : bool :=
  match v with VArray _ _ => true | _ => false end.

(** ** The members the platform gives to a value *)

(** The kinds of value whose properties the model reads: the three kinds of
    object it holds, and the three kinds of primitive, which JavaScript
    reads through the prototype of their wrapper. *)
Inductive kind : Type :=
  | KObject
  | KArray
  | KFile
  | KString
  | KNumber
  | KBoolean.

Definition kind_of (v : value) : option kind :=
  match v with
  | VObject _ => Some KObject
  | VArray _ _ => Some KArray
  | VFile _ _ _ => Some KFile
  | VStr _ => Some KString
  | VNum _ => Some KNumber
  | VBool _ => Some KBoolean
  | VUndefined | VNull | VBuiltin _ => None
  end.

(** A member that is not an own data property held by the model.
    [Inherited v] is a writable data property of a prototype: it reads as
    [v], and an assignment to an object shadows it with an own property.
    [Special] is an accessor or an exotic property, such as [__proto__], the
    [length] of an array or of a string, or the getters of a [File]:
    reading it computes, and assigning it changes other state, is ignored
    or throws. *)
Inductive member : Type :=
  | Inherited (v : value)
  | Special.

(** Members that every engine has, from the ECMAScript standard library
    (as of its fifth edition) and the File API: the data members a value
    inherits from its prototypes, and the members that are special. *)
Definition object_prototype : list string :=
  ["hasOwnProperty"; "isPrototypeOf"; "propertyIsEnumerable";
   "toLocaleString"; "toString"; "valueOf"].

Definition array_prototype : list string :=
  ["concat"; "every"; "filter"; "forEach"; "indexOf"; "join"; "lastIndexOf";
   "map"; "pop"; "push"; "reduce"; "reduceRight"; "reverse"; "shift";
   "slice"; "some"; "sort"; "splice"; "toLocaleString"; "toString";
   "unshift"].

Definition string_prototype : list string :=
  ["charAt"; "charCodeAt"; "concat"; "indexOf"; "lastIndexOf";
   "localeCompare"; "match"; "replace"; "search"; "slice"; "split";
   "substring"; "toLocaleLowerCase"; "toLocaleUpperCase"; "toLowerCase";
   "toString"; "toUpperCase"; "trim"; "valueOf"].

Definition number_prototype : list string :=
  ["toExponential"; "toFixed"; "toLocaleString"; "toPrecision"; "toString";
   "valueOf"].

Definition boolean_prototype : list string := ["toString"; "valueOf"].

Definition file_prototype : list string := ["slice"].

Definition constructor_name (k : kind) : string :=
  match k with
  | KObject => "Object"
  | KArray => "Array"
  | KFile => "File"
  | KString => "String"
  | KNumber => "Number"
  | KBoolean => "Boolean"
  end.

Definition prototype_of (k : kind) : list string :=
  match k with
  | KObject => []
  | KArray => array_prototype
  | KFile => file_prototype
  | KString => string_prototype
  | KNumber => number_prototype
  | KBoolean => boolean_prototype
  end.

Definition special_of (k : kind) : list string :=
  "__proto__" ::
  match k with
  | KArray | KString => ["length"]
  | KFile => ["name"; "lastModified"; "size"; "type"]
  | KObject | KNumber | KBoolean => []
  end.

Definition named (key : string) (names : list string) : bool :=
  existsb (fun n => bool_decide (n = key)) names.

(** The built-in function a value of kind [k] inherits under [key] from
    the prototype of its kind. *)
Definition method (k : kind) (key : string) : member :=
  Inherited (VBuiltin (constructor_name k +:+ ".prototype." +:+ key)).

(** The member a value of kind [k] has under [key], by the lists above: a
    special member, else the constructor, else a method of the prototype
    of the kind, else a method of [Object.prototype]. *)
Definition universal_member (k : kind) (key : string) : option member :=
  if named key (special_of k) then Some Special
  else if bool_decide (key = "constructor")
  then Some (Inherited (VBuiltin (constructor_name k)))
  else if named key (prototype_of k) then Some (method k key)
  else if named key object_prototype then Some (method KObject key)
  else None.

(** The platform: the members a value of each kind has under each key.  An
    engine has the members above and may have more; a member whose
    behaviour is in doubt is counted as special, which commits to
    nothing. *)
Class Host : Type := {
  member_of : kind → string → option member;
  member_universal : ∀ k key m,
    universal_member k key = Some m → member_of k key = Some m
}.

(** The members that came later, up to ECMAScript 2024 with its annex for
    web browsers and the current File API. *)
Definition later_object_prototype : list string :=
  ["__defineGetter__"; "__defineSetter__"; "__lookupGetter__";
   "__lookupSetter__"].

Definition later_prototype_of (k : kind) : list string :=
  match k with
  | KArray =>
      ["at"; "copyWithin"; "entries"; "fill"; "find"; "findIndex";
       "findLast"; "findLastIndex"; "flat"; "flatMap"; "includes"; "keys";
       "toReversed"; "toSorted"; "toSpliced"; "values"; "with"]
  | KString =>
      ["at"; "codePointAt"; "endsWith"; "includes"; "isWellFormed";
       "matchAll"; "normalize"; "padEnd"; "padStart"; "repeat";
       "replaceAll"; "startsWith"; "toWellFormed"; "trimEnd"; "trimStart";
       "trimLeft"; "trimRight"; "substr"; "anchor"; "big"; "blink"; "bold";
       "fixed"; "fontcolor"; "fontsize"; "italics"; "link"; "small";
       "strike"; "sub"; "sup"]
  | KFile => ["arrayBuffer"; "bytes"; "stream"; "text"]
  | KObject | KNumber | KBoolean => []
  end.

Definition later_special_of (k : kind) : list string :=
  match k with
  | KFile => ["webkitRelativePath"]
  | _ => []
  end.

(** The members of a current engine. *)
Definition standard_member (k : kind) (key : string) : option member :=
  match universal_member k key with
  | Some m => Some m
  | None =>
      if named key (later_special_of k) then Some Special
      else if named key (later_prototype_of k) then Some (method k key)
      else if named key later_object_prototype then Some (method KObject key)
      else None
  end.

(** The platform the examples run on. *)
Definition standard : Host :=
  {| member_of := standard_member;
     member_universal :=
       ltac:(intros k key m e; unfold standard_member; by rewrite e) |}.

(** ** Property access *)

(** The key a segment is used as in [pointer[key]]: a number is converted to
    its decimal numeral. *)
Definition prop_key (p : pathseg) : string :=
  match p with
  | PName s => s
  | PIndex n => number_to_string n
  end.

(** A segment whose key is known exactly: a name, or an index up to [2^53],
    beyond which [Number] rounds. *)
Definition exact (p : pathseg) : bool :=
  match p with
  | PIndex n => (n <=? 9007199254740992)%N
  | PName _ => true
  end.

(** A key is an array index when it is the canonical numeral of a number
    below [2^32 - 1]. *)
Definition array_index (key : string) : option nat :=
  let n := Number key in
  if bool_decide (number_to_string n = key) && (n <? 4294967295)%N
  then Some (N.to_nat n) else None.

(** The own data property of a value under a key, if it has one: a property
    of an object, an element of an array that is not a hole, a character
    of a string. *)
Definition own (pointer : value) (key : string) : option value :=
  match pointer with
  | VObject props | VFile _ _ props => props !! key
  | VArray elems props =>
      match array_index key with
      | Some i => mjoin (elems !! i)
      | None => props !! key
      end
  | VStr s =>
      match array_index key with
      | Some i => (fun c => VStr (String c "")) <$> String.get i s
      | None => None
      end
  | VUndefined | VNull | VBool _ | VNum _ | VBuiltin _ => None
  end.

(** [pointer[key]]: the own property, else the data member the platform
    gives, else [undefined].  Reading a property of [undefined] or [null]
    throws; a special member that no own property shadows, and every
    property of a built-in object, is outside the model. *)
Definition get {H : Host} (pointer : value) (key : string) : result value :=
  match kind_of pointer with
  | Some k =>
      match own pointer key with
      | Some v => Ok v
      | None =>
          match member_of k key with
          | None => Ok VUndefined
          | Some (Inherited v) => Ok v
          | Some Special => Throw Unmodelled
          end
      end
  | None => Throw (if nullish pointer then TypeError else Unmodelled)
  end.

(** [elems[i] = v] on the elements of an array: the array grows, with holes,
    up to the index. *)
Definition array_store (elems : list (option value)) (i : nat) (v : value)
  : list (option value) :=
  <[i := Some v]> (elems ++ replicate (S i - length elems) None).

(** The objects whose properties the model holds: plain objects, arrays and
    files. *)
Definition is_object (v : value) : bool :=
  match v with
  | VObject _ | VArray _ _ | VFile _ _ _ => true
  | VUndefined | VNull | VBool _ | VNum _ | VStr _ | VBuiltin _ => false
  end.

(** What creating or overwriting the own data property [key] leaves of an
    object. *)
Definition store (pointer : value) (key : string) (v : value) : value :=
  match pointer with
  | VObject props => VObject (<[key := v]> props)
  | VFile name size props => VFile name size (<[key := v]> props)
  | VArray elems props =>
      match array_index key with
      | Some i => VArray (array_store elems i v) props
      | None => VArray elems (<[key := v]> props)
      end
  | VUndefined | VNull | VBool _ | VNum _ | VStr _ | VBuiltin _ => pointer
  end.

(** [pointer[key] = v].  On an object the assignment writes the own
    property, which it creates when the key names nothing or an inherited
    data member; a special member that no own property shadows is outside
    the model.  In strict code the assignment throws on a primitive. *)
Definition set {H : Host} (pointer : value) (key : string) (v : value)
  : result value :=
  match kind_of pointer with
  | Some k =>
      match own pointer key, member_of k key with
      | None, Some Special => Throw Unmodelled
      | _, _ =>
          if is_object pointer then Ok (store pointer key v)
          else Throw TypeError
      end
  | None => Throw (if nullish pointer then TypeError else Unmodelled)
  end.

(** [record?.[k1]?.[k2]...]: the value a path addresses, [undefined] when
    the path leads through [undefined] or [null].  A segment that is not
    exact is outside the model. *)
Fixpoint lookup_path {H : Host} (record : value) (paths : list pathseg)
  : result value :=
  match paths with
  | [] => Ok record
  | key :: rest =>
      if nullish record then Ok VUndefined
      else if negb (exact key) then Throw Unmodelled
      else let* v := get record (prop_key key) in lookup_path v rest
  end.

(** [[v1, ..., vn]]. *)
Definition array_of (vs : list value) : value := VArray (Some <$> vs) ∅.

(** ** setValue *)

(** The container [setValue] creates under a missing key. *)
Definition fresh (next : pathseg) : value :=
  if is_number next then VArray [] ∅ else VObject ∅.

(** The loop of [setValue], from [pointer] over the remaining [paths]; it
    returns what [pointer] has become.  The loop assigns [pointer[key]] and
    then moves to that very object, so what the rest of the loop does to it
    is seen through [pointer[key]]: the last line stores it back.  A segment
    that is not exact is outside the model: its key is not the one the
    code uses. *)
Fixpoint walk {H : Host} (valueFn : value → result value) (pointer : value)
    (paths : list pathseg) : result value :=
  match paths with
  | [] => Ok pointer
  | key :: rest =>
      if nullish pointer then Ok pointer
      else if negb (exact key) then Throw Unmodelled
      else
        let* prev := get pointer (prop_key key) in
        let* newValue :=
          match rest with
          | [] => valueFn prev
          | next :: _ => Ok (coalesce prev (fresh next))
          end in
        let* pointer' := set pointer (prop_key key) newValue in
        let* child := walk valueFn newValue rest in
        set pointer' (prop_key key) child
  end.

Definition setValue {H : Host} (target : value) (name : string)
    (valueFn : value → result value) : result value :=
  walk valueFn target (getPaths name).

(** ** toRecord *)

(** [FormDataEntryValue]: a string or a [File]. *)
Inductive entry_value : Type :=
  | EString (s : string)
  | EFile (name : string) (size : N).

(** [prev.concat(next)] on the elements of [prev]: an array argument is
    spread, anything else is one element; the named properties of [prev] are
    not copied.  The length of an array is below [2^32]. *)
Definition concat (elems : list (option value)) (next : value) : result value :=
  let items := match next with VArray elems' _ => elems' | _ => [Some next] end in
  if (N.of_nat (length elems + length items) <=? 4294967295)%N
  then Ok (VArray (elems ++ items) ∅)
  else Throw RangeError.

(** The callback [toRecord] gives to [setValue]. *)
Definition merge (next prev : value) : result value :=
  if negb (truthy prev) then Ok next
  else if negb (truthy next) then Ok prev
  else match prev with
       | VArray elems _ => concat elems next
       | _ => Ok (array_of [prev; next])
       end.

Section Builder.

Context {H : Host}.

(** [JSON.parse]: the value of a JSON text, [None] when it throws. *)
Variable JSON_parse : string → option value.

Definition safeParseJSON (s : string) : value :=
  match JSON_parse s with
  | Some v => v
  | None => VStr s
  end.

(** The two [if]s at the head of the loop body: [next]. *)
Definition coerce (raw : entry_value) : value :=
  let next :=
    if match raw with
       | EString s => bool_decide (s = "")
       | EFile name size => bool_decide (name = "") && (size =? 0)%N
       end
    then None else Some raw in
  match next with
  | Some (EString s) => safeParseJSON s
  | Some (EFile name size) => VFile name size ∅
  | None => VUndefined
  end.

Fixpoint toRecord (payload : list (string * entry_value)) (record : value)
  : result value :=
  match payload with
  | [] => Ok record
  | (key, raw) :: rest =>
      let* record' := setValue record key (merge (coerce raw)) in
      toRecord rest record'
  end.

End Builder.

(** ** The adapters *)

(** What the adapters read of a [Request]: its [url], the value of
    [headers.get("Content-Type")] ([None] for [null]) and what
    [request.formData()] resolves to. *)
Record Request : Type := {
  url : string;
  contentType : option string;
  formData : result (list (string * entry_value))
}.

Inductive query_input : Type :=
  | QueryUrl (u : string)
  | QueryRequest (r : Request)
  | QueryParams (p : list (string * string)).

Inductive form_input : Type :=
  | FormRequest (r : Request)
  | Form (f : list (string * entry_value)).

(** The entries of a [URLSearchParams]: every value is a string. *)
Definition entries (p : list (string * string)) : list (string * entry_value) :=
  map (fun kv => (kv.1, EString kv.2)) p.

(** The truth value of [contentType && contentType.includes(...)]. *)
Definition containsFormData (request : Request) : bool :=
  match contentType request with
  | Some c => negb (bool_decide (c = "")) && includes c "multipart/form-data"
  | None => false
  end.

Section Adapters.

Context {H : Host}.

Variable JSON_parse : string → option value.

(** [new URL(u).searchParams]; the constructor throws on a malformed URL. *)
Variable searchParams : string → result (list (string * string)).

(** The schema: [schema.parse], which throws a [ZodError]. *)
Variable Output : Type.
Variable schema_parse : value → result Output.

(** The record [toRecord] starts from inside a Zod pipeline.  Zod calls a
    transform with the value and its refinement context, so this is what
    the second parameter of [toRecord] receives there; its default, an
    empty object, applies to a direct call. *)
Variable record0 : value.

Definition parseQueryAsync (input : query_input) : result Output :=
  let* params :=
    match input with
    | QueryUrl u => searchParams u
    | QueryRequest r => searchParams (url r)
    | QueryParams p => Ok p
    end in
  let* record := toRecord JSON_parse (entries params) record0 in
  schema_parse record.

Definition parseFormDataAsync (input : form_input) : result Output :=
  let* form :=
    match input with
    | FormRequest r => formData r
    | Form f => Ok f
    end in
  let* record := toRecord JSON_parse form record0 in
  schema_parse record.

Definition parseRequestAsync (request : Request) : result Output :=
  if negb (containsFormData request) then parseQueryAsync (QueryRequest request)
  else
    let* form := formData request in
    let* params := searchParams (url request) in
    parseFormDataAsync (Form (form ++ entries params)).

End Adapters.

(** ** The transformer zt.json *)

Module zt.

(** [TValue extends string | null | undefined]. *)
Inductive input : Type :=
  | INull
  | IUndefined
  | IString (s : string).

(** What the transform returns: its argument, the output of the schema, or
    [z.NEVER]. *)
Inductive output (Output : Type) : Type :=
  | Same (v : input)
  | Parsed (o : Output)
  | NEVER.
Arguments Same {Output} v.
Arguments Parsed {Output} o.
Arguments NEVER {Output}.

Record issue : Type := { code : string; message : string }.

Section json.

Variable JSON_parse : string → option value.
Variable Output : Type.
Variable schema_parse : value → result Output.

Definition invalid_json : issue :=
  {| code := "custom"; message := "Must be a valid JSON string." |}.

(** The function [zt.json(schema)] returns; [ctx] is the list of issues
    reported so far, and [ctx.addIssue] adds one at its end. *)
Definition json (v : input) (ctx : list issue) : output Output * list issue :=
  match v with
  | INull | IUndefined => (Same v, ctx)
  | IString s =>
      match JSON_parse s with
      | Some parsed =>
          match schema_parse parsed with
          | Ok o => (Parsed o, ctx)
          | Throw _ => (NEVER, ctx ++ [invalid_json])
          end
      | None => (NEVER, ctx ++ [invalid_json])
      end
  end.

End json.

(** *** findBy *)

(** [x[key]] where [x] is an item of the array: an own property, a member
    the platform gives, or [undefined]; reading a property of [null] or
    [undefined] throws. *)
Definition read {H : Host} (x : value) (key : string) : result value :=
  get x key.

(** [p === v] for an input [v], which is a string, [null] or [undefined]:
    no object is equal to it. *)
Definition strict_equal (p : value) (v : input) : bool :=
  match v, p with
  | INull, VNull => true
  | IUndefined, VUndefined => true
  | IString s, VStr s' => bool_decide (s' = s)
  | _, _ => false
  end.

(** [arr.find((x) => x[key] === value)]: the first item that matches, [None]
    for [undefined]. *)
Fixpoint find {H : Host} (key : string) (v : input) (arr : list value)
  : result (option value) :=
  match arr with
  | [] => Ok None
  | x :: rest =>
      let* p := read x key in
      if strict_equal p v then Ok (Some x) else find key v rest
  end.

Definition no_match : issue :=
  {| code := "custom"; message := "Must match a value from the provided array." |}.

(** The function [zt.findBy(key, arr)] returns. *)
Definition findBy {H : Host} (key : string) (arr : list value) (v : input)
    (ctx : list issue) : result (output value * list issue) :=
  let* found := find key v arr in
  match found with
  | Some x =>
      if negb (truthy x) then Ok (NEVER, ctx ++ [no_match])
      else Ok (Parsed x, ctx)
  | None => Ok (NEVER, ctx ++ [no_match])
  end.

End zt.

(** ** The notions of the specification *)

(** A field name of the path grammar: one or more word characters. *)
Definition field_name (s : string) : bool :=
  negb (bool_decide (s = "")) && string_forall is_word s.

(** [digits]: one or more decimal digits. *)
Definition digits (s : string) : bool :=
  negb (bool_decide (s = "")) && string_forall is_digit s.

(** [segment = fieldName? "[" digits "]" | fieldName]. *)
Inductive segment : string → Prop :=
  | segment_field n :
      field_name n = true → segment n
  | segment_index n d :
      n = "" ∨ field_name n = true → digits d = true →
      segment (n +:+ "[" +:+ d +:+ "]").

(** [segment ("." segment)*]. *)
Inductive path_string : string → Prop :=
  | path_last t :
      segment t → path_string t
  | path_dot t s :
      segment t → path_string s → path_string (t +:+ "." +:+ s).

(** The numeral a number prints as: no leading zero, and a value that
    [Number] represents exactly. *)
Definition canonical (d : string) : bool :=
  digits d
  && (bool_decide (d = "0") || negb (String.prefix "0" d))
  && (Number d <=? 9007199254740992)%N.

(** A token of the bare-field pattern has no bracket. *)
Definition bare_field (t : string) : bool :=
  string_forall (fun c => negb (Ascii.eqb c "[" || Ascii.eqb c "]")) t.

(** The tokens that [formatPaths] writes back as they were read: a bare
    field (not empty, no dot, no bracket), a field name with a canonical
    index, and, as the first token only, a canonical index alone. *)
Inductive token (first : bool) : string → Prop :=
  | token_field n :
      n ≠ "" → no_dot n = true → bare_field n = true → token first n
  | token_named_index n d :
      field_name n = true → canonical d = true →
      token first (n +:+ "[" +:+ d +:+ "]")
  | token_index d :
      first = true → canonical d = true →
      token first ("[" +:+ d +:+ "]").

(** A token of the bracket pattern, read as the whole token: word
    characters, then one bracketed group of digits, then nothing. *)
Definition bracket_form (t : string) : bool :=
  let '(w, r) := span is_word t in
  match r with
  | String "[" r1 =>
      let '(d, r2) := span is_digit r1 in
      negb (bool_decide (d = "")) && bool_decide (r2 = "]")
  | _ => false
  end.

(** The pattern occurs in a token: somewhere in it stand word characters
    (possibly none), an opening bracket, one or more digits and a closing
    bracket. *)
Definition occurs_in (t : string) : Prop :=
  ∃ pre w d post,
    t = pre +:+ w +:+ "[" +:+ d +:+ "]" +:+ post
    ∧ string_forall is_word w = true ∧ digits d = true.

(** The merge policy in the words of the specification, where a value is
    absent when it is [undefined] and appending adds one element. *)
Definition spec_merge (next prev : value) : value :=
  match prev, next with
  | VUndefined, _ => next
  | _, VUndefined => prev
  | VArray elems _, _ => VArray (elems ++ [Some next]) ∅
  | _, _ => array_of [prev; next]
  end.

(** Two paths that part ways: after a common prefix they go on with two
    segments of the same kind, both names or both indices, that are
    different keys, each known exactly. *)
Fixpoint independent (p q : list pathseg) : bool :=
  match p, q with
  | a :: p', b :: q' =>
      if decide (a = b) then independent p' q'
      else negb (bool_decide (prop_key a = prop_key b))
           && bool_decide (is_number a = is_number b)
           && exact a && exact b
  | _, _ => false
  end.

(** ** The keys the model describes *)

(** What a key that names no member of the platform reads: the own
    property, or [undefined]. *)
Definition peek (pointer : value) (key : string) : value :=
  default VUndefined (own pointer key).

(** A segment is ordinary when its key is known exactly and names no member
    that the platform gives to plain objects or to arrays, the containers
    [setValue] creates: in them [pointer[key]] reads and writes own data
    properties only. *)
Definition ordinary {H : Host} (p : pathseg) : bool :=
  exact p
  && forallb (fun k => match member_of k (prop_key p) with
                       | None => true
                       | Some _ => false
                       end) [KObject; KArray].

(** A segment that is known exactly and names no member that the platform
    gives to the value. *)
Definition plain_on {H : Host} (v : value) (p : pathseg) : bool :=
  exact p
  && match kind_of v with
     | Some k => match member_of k (prop_key p) with
                 | None => true
                 | Some _ => false
                 end
     | None => false
     end.

(** A path of ordinary segments. *)
Definition ordinary_path {H : Host} (p : list pathseg) : bool :=
  forallb ordinary p.

(** The reorderings of a sequence of entries that exchange neighbours whose
    paths are made of ordinary segments and part ways. *)
Inductive reorder {H : Host} : relation (list (string * entry_value)) :=
  | reorder_refl l :
      reorder l l
  | reorder_skip e l l' :
      reorder l l' → reorder (e :: l) (e :: l')
  | reorder_swap e1 e2 l :
      independent (getPaths e1.1) (getPaths e2.1) = true →
      ordinary_path (getPaths e1.1) = true →
      ordinary_path (getPaths e2.1) = true →
      reorder (e1 :: e2 :: l) (e2 :: e1 :: l)
  | reorder_trans l1 l2 l3 :
      reorder l1 l2 → reorder l2 l3 → reorder l1 l3.

(** A plain object or an array. *)
Definition is_container (v : value) : bool :=
  match v with
  | VObject _ | VArray _ _ => true
  | _ => false
  end.

(** A path along which [setValue] meets nothing but plain objects, arrays
    and missing keys. *)
Fixpoint passable (pointer : value) (paths : list pathseg) : Prop :=
  match paths with
  | [] => True
  | key :: rest =>
      is_container pointer = true
      ∧ match rest with
        | [] => True
        | _ :: _ =>
            nullish (peek pointer (prop_key key)) = true
            ∨ passable (peek pointer (prop_key key)) rest
        end
  end.

(** A reader of the JSON texts the examples use: it knows the literals
    [true], [false], [null] and [0] and rejects every other text, as
    [JSON.parse] does for the words the examples give it. *)
Definition json_literals (s : string) : option value :=
  if decide (s = "true") then Some (VBool true)
  else if decide (s = "false") then Some (VBool false)
  else if decide (s = "null") then Some VNull
  else if decide (s = "0") then Some (VNum 0)
  else None.

(** ** Auxiliary notions *)

(** Where a run of characters satisfying [p] ends: at the end of the string
    or before a character that does not satisfy it. *)
Definition stops (p : ascii → bool) (r : string) : bool :=
  match r with
  | "" => true
  | String c _ => negb (p c)
  end.

(** What follows the first token in a dotted string. *)
Definition dotted (ts : list string) : string :=
  fold_right (fun t r => "." +:+ t +:+ r) "" ts.

(** What the slot under a key holds once the loop has run over the rest of
    the path, from what it held before. *)
Definition slot {H : Host} (valueFn : value → result value) (old : value)
    (rest : list pathseg) : result value :=
  let* newValue :=
    match rest with
    | [] => valueFn old
    | next :: _ => Ok (coalesce old (fresh next))
    end in
  walk valueFn newValue rest.

(** The value a slot holds after merging the values [nexts] into it, in
    order. *)
Definition merged (nexts : list value) (prev : value) : result value :=
  fold_left (fun acc next => let* prev := acc in merge next prev) nexts (Ok prev).

(** Two computations with the same outcome, up to which error is thrown. *)
Definition same_ok {A} (a b : result A) : Prop := ∀ r, a = Ok r ↔ b = Ok r.

(** A string, a number or a boolean. *)
Definition is_primitive (v : value) : bool :=
  match v with
  | VStr _ | VNum _ | VBool _ => true
  | _ => false
  end.

(** Two paths that go to different slots: the same keys up to some
    position, then two different keys. *)
Fixpoint parts_ways (p q : list pathseg) : bool :=
  match p, q with
  | a :: p', b :: q' =>
      if decide (prop_key a = prop_key b) then parts_ways p' q' else true
  | _, _ => false
  end.

(** The paths [formatPaths] writes so that [getPaths] reads them back: names
    are field names, indices are exact, and an index stands first or right
    after a name. *)
Fixpoint writable (after_name : bool) (p : list pathseg) : bool :=
  match p with
  | [] => true
  | PName n :: rest => field_name n && writable true rest
  | PIndex i :: rest =>
      after_name && (i <=? 9007199254740992)%N && writable false rest
  end.

(** The tokens [formatPaths] writes for a path. *)
Fixpoint tokens_of (p : list pathseg) : list string :=
  match p with
  | [] => []
  | PName n :: rest =>
      match rest with
      | PIndex i :: rest' =>
          (n +:+ "[" +:+ number_to_string i +:+ "]") :: tokens_of rest'
      | _ => n :: tokens_of rest
      end
  | PIndex i :: rest => ("[" +:+ number_to_string i +:+ "]") :: tokens_of rest
  end.

(** What a slot that was empty holds after values that are not arrays were
    merged into it, in order: their truthy ones, as an array when they are
    several; the last value when none is truthy. *)
Definition settled (vs : list value) : value :=
  match filter (fun v => truthy v = true) vs with
  | [] => List.last vs VUndefined
  | [t] => t
  | ts => array_of ts
  end.




(** A key that is one plain name: not empty, without dot or bracket. *)
Definition plain_key (k : string) : bool :=
  negb (bool_decide (k = "")) && no_dot k && bare_field k.

(** * Properties *)

Example getPaths_doc : getPaths "a.b[2]" = [PName "a"; PName "b"; PIndex 2].
Proof. reflexivity. Qed.

Example formatPaths_doc :
  formatPaths [PName "foo"; PIndex 0; PName "content"] = "foo[0].content".
Proof. reflexivity. Qed.

Example tasks_scenario :
  toRecord (H := standard) json_literals
    [("tasks[0].label", EString "A"); ("tasks[0].description", EString "B");
     ("tasks[1].label", EString "C"); ("tasks[1].description", EString "D")]
    (VObject ∅)
  = Ok (VObject {[ "tasks" :=
          array_of [VObject {[ "label" := VStr "A"; "description" := VStr "B" ]};
                    VObject {[ "label" := VStr "C"; "description" := VStr "D" ]}] ]}).
Proof. vm_compute. reflexivity. Qed.

(** A key that names an inherited member: the function it inherits is what
    the slot held before. *)
Example inherited_member :
  toRecord (H := standard) json_literals [("toString", EString "a")]
    (VObject ∅)
  = Ok (VObject {[ "toString" :=
          array_of [VBuiltin "Object.prototype.toString"; VStr "a"] ]}).
Proof. vm_compute. reflexivity. Qed.

(** Keys that reach a special member, a built-in object or an index beyond
    2^53 leave the model. *)
Example special_member :
  toRecord (H := standard) json_literals [("__proto__.x", EString "a")]
    (VObject ∅)
  = Throw Unmodelled
  ∧ toRecord (H := standard) json_literals
      [("a[0]", EString "x"); ("a.length", EString "0")] (VObject ∅)
    = Throw Unmodelled
  ∧ toRecord (H := standard) json_literals [("toString[0]", EString "a")]
      (VObject ∅)
    = Throw Unmodelled
  ∧ toRecord (H := standard) json_literals
      [("a[9007199254740993]", EString "a")] (VObject ∅)
    = Throw Unmodelled.
Proof. repeat split; vm_compute; reflexivity. Qed.


(** ** Strings and the pattern *)

Lemma append_assoc (a b c : string) : (a +:+ b) +:+ c = a +:+ (b +:+ c).
Proof. induction a as [|x a IH]; simpl; [done | by rewrite IH]. Qed.

Lemma append_empty_r (a : string) : a +:+ "" = a.
Proof. induction a as [|x a IH]; simpl; [done | by rewrite IH]. Qed.

Lemma span_spec p s w r :
  span p s = (w, r) →
  s = w +:+ r ∧ string_forall p w = true ∧ stops p r = true.
Proof.
  revert w r. induction s as [|c s IH]; intros w r; simpl.
  - intros [= <- <-]. done.
  - destruct (p c) eqn:Hc.
    + destruct (span p s) as [w' r'] eqn:Hs. intros [= <- <-].
      destruct (IH _ _ eq_refl) as (-> & Hw & Hr).
      simpl. by rewrite Hc, Hw.
    + intros [= <- <-]. simpl. by rewrite Hc.
Qed.

Lemma span_app p w r :
  string_forall p w = true → stops p r = true → span p (w +:+ r) = (w, r).
Proof.
  induction w as [|c w IH]; simpl; intros Hw Hr.
  - destruct r as [|c r]; simpl in *; [done |].
    by apply negb_true_iff in Hr as ->.
  - apply andb_true_iff in Hw as [-> Hw]. by rewrite IH.
Qed.

Lemma match_here_sound s w d :
  match_here s = Some (w, d) →
  ∃ post, s = w +:+ "[" +:+ d +:+ "]" +:+ post
          ∧ string_forall is_word w = true ∧ digits d = true.
Proof.
  unfold match_here. destruct (span is_word s) as [w' r] eqn:Hw.
  apply span_spec in Hw as (-> & Hw & _).
  destruct r as [|c r1]; [done |].
  destruct (decide (c = "["%char)) as [-> | Hc].
  2: { destruct c as [[] [] [] [] [] [] [] []]; done. }
  destruct (span is_digit r1) as [d' r2] eqn:Hd.
  apply span_spec in Hd as (-> & Hd & _).
  destruct d' as [|x d']; [done |].
  destruct r2 as [|c2 r2]; [done |].
  destruct (decide (c2 = "]"%char)) as [-> | Hc2].
  2: { destruct c2 as [[] [] [] [] [] [] [] []]; done. }
  intros [= <- <-]. exists r2. split; [| split; [done |]].
  - reflexivity.
  - unfold digits. by rewrite Hd.
Qed.

(** Every way of reading a match at the head of [s] gives the same two
    groups: the greedy choice loses nothing. *)
Lemma match_here_spec s w d :
  match_here s = Some (w, d)
  ↔ ∃ post, s = w +:+ "[" +:+ d +:+ "]" +:+ post
            ∧ string_forall is_word w = true ∧ digits d = true.
Proof.
  split; [apply match_here_sound |].
  intros (post & -> & Hw & Hd). unfold match_here.
  rewrite (span_app is_word w) by done. simpl.
  apply andb_true_iff in Hd as [Hne Hd].
  rewrite (span_app is_digit d) by done.
  by destruct d.
Qed.

Lemma match_here_app w d post :
  string_forall is_word w = true → digits d = true →
  match_here (w +:+ "[" +:+ d +:+ "]" +:+ post) = Some (w, d).
Proof.
  intros Hw Hd. apply match_here_spec. by exists post.
Qed.

Lemma pattern_exec_eq s :
  pattern_exec s =
  match match_here s with
  | Some m => Some m
  | None => match s with "" => None | String _ s' => pattern_exec s' end
  end.
Proof. by destruct s. Qed.

Lemma pattern_exec_app w d post :
  string_forall is_word w = true → digits d = true →
  pattern_exec (w +:+ "[" +:+ d +:+ "]" +:+ post) = Some (w, d).
Proof.
  intros Hw Hd. by rewrite pattern_exec_eq, match_here_app.
Qed.

(** A match anywhere in the token is found: the pattern is not anchored. *)
Lemma pattern_exec_found pre w d post :
  string_forall is_word w = true → digits d = true →
  is_Some (pattern_exec (pre +:+ w +:+ "[" +:+ d +:+ "]" +:+ post)).
Proof.
  intros Hw Hd. induction pre as [|c pre IH].
  - change (is_Some (pattern_exec (w +:+ "[" +:+ d +:+ "]" +:+ post))).
    rewrite pattern_exec_app by done. by eexists.
  - rewrite pattern_exec_eq. simpl. destruct (match_here _); [by eexists | done].
Qed.

Lemma pattern_exec_sound s w d :
  pattern_exec s = Some (w, d) →
  ∃ pre post, s = pre +:+ w +:+ "[" +:+ d +:+ "]" +:+ post
              ∧ string_forall is_word w = true ∧ digits d = true.
Proof.
  induction s as [|c s IH].
  - done.
  - rewrite pattern_exec_eq. destruct (match_here (String c s)) as [m|] eqn:Hm.
    + intros [= ->]. apply match_here_sound in Hm as (post & ? & ? & ?).
      by exists "", post.
    + intros H. destruct (IH H) as (pre & post & -> & ? & ?).
      by exists (String c pre), post.
Qed.

Lemma pattern_exec_word n :
  string_forall is_word n = true → pattern_exec n = None.
Proof.
  induction n as [|c n IH]; [done |].
  intros Hn. pose proof Hn as Hn'. simpl in Hn'.
  apply andb_true_iff in Hn' as [_ Hn'].
  rewrite pattern_exec_eq, IH by done. unfold match_here.
  replace (String c n) with (String c n +:+ "") by apply append_empty_r.
  by rewrite span_app.
Qed.

(** ** Numerals *)

Lemma digit_uint c u :
  is_digit c = true →
  ∃ u', uint_of_char c (Some u) = Some u'
        ∧ (c ≠ "0"%char → Decimal.nzhead u' = u' ∧ u' ≠ Decimal.Nil).
Proof.
  destruct c as [[] [] [] [] [] [] [] []]; intros Hc; try discriminate Hc;
    (eexists; split; [reflexivity | intros Hne; try done]).
Qed.

Lemma digits_uint d :
  string_forall is_digit d = true →
  ∃ u, NilEmpty.uint_of_string d = Some u.
Proof.
  induction d as [|c d IH]; simpl; [by eexists |].
  intros [Hc Hd]%andb_true_iff. destruct (IH Hd) as [u ->].
  destruct (digit_uint c u Hc) as (u' & -> & _). by eexists.
Qed.

Lemma canonical_print d :
  canonical d = true → number_to_string (Number d) = d.
Proof.
  unfold canonical, digits. intros [[[Hne Hd]%andb_true_iff Hz]%andb_true_iff _]%andb_true_iff.
  apply orb_true_iff in Hz as [Hz | Hz].
  { by apply bool_decide_eq_true in Hz as ->. }
  destruct d as [|c d]; [done |]. simpl in Hd.
  apply andb_true_iff in Hd as [Hc Hd].
  destruct (digits_uint d Hd) as [u Hu].
  destruct (digit_uint c u Hc) as (u' & Hu' & Hnz).
  assert (c ≠ "0"%char) as Hc0.
  { intros ->. by destruct d. }
  destruct (Hnz Hc0) as [Hhead Hnil].
  assert (NilEmpty.uint_of_string (String c d) = Some u') as Hparse.
  { simpl. by rewrite Hu. }
  unfold number_to_string, Number. rewrite Hparse, Unsigned.to_of.
  unfold Decimal.unorm. rewrite Hhead.
  apply NilEmpty.sus in Hparse.
  destruct u'; [done | ..]; exact Hparse.
Qed.

(** ** Splitting and joining on dots *)

Lemma string_forall_impl (p q : ascii → bool) s :
  (∀ c, p c = true → q c = true) →
  string_forall p s = true → string_forall q s = true.
Proof.
  intros Hpq. induction s as [|c s IH]; simpl; [done |].
  intros [Hc Hs]%andb_true_iff. by rewrite (Hpq c Hc), IH.
Qed.

Lemma string_forall_app p a b :
  string_forall p (a +:+ b) = string_forall p a && string_forall p b.
Proof.
  induction a as [|c a IH]; simpl; [done |]. by rewrite IH, andb_assoc.
Qed.

Lemma word_no_dot n : string_forall is_word n = true → no_dot n = true.
Proof.
  apply string_forall_impl. intros c.
  destruct c as [[] [] [] [] [] [] [] []]; done.
Qed.

Lemma digit_no_dot d : string_forall is_digit d = true → no_dot d = true.
Proof.
  apply string_forall_impl. intros c.
  destruct c as [[] [] [] [] [] [] [] []]; done.
Qed.

Lemma field_name_word n : field_name n = true → string_forall is_word n = true.
Proof. by intros [_ ?]%andb_true_iff. Qed.

Lemma field_name_nonempty n : field_name n = true → n ≠ "".
Proof. intros [Hn _]%andb_true_iff. by apply negb_true_iff, bool_decide_eq_false in Hn. Qed.

Lemma canonical_digits d : canonical d = true → digits d = true.
Proof. by intros [[? _]%andb_true_iff _]%andb_true_iff. Qed.

Lemma digits_digit d : digits d = true → string_forall is_digit d = true.
Proof. by intros [_ ?]%andb_true_iff. Qed.

Lemma token_no_dot first t : token first t → no_dot t = true.
Proof.
  unfold no_dot. intros [n _ Hn _ | n d Hn Hd | d _ Hd]; [exact Hn | ..];
    rewrite ?string_forall_app; simpl;
    rewrite ?andb_true_r;
    try apply andb_true_iff; try split;
    auto using word_no_dot, digit_no_dot, field_name_word,
      canonical_digits, digits_digit.
Qed.

Lemma token_nonempty first t : token first t → t ≠ "".
Proof.
  intros [n Hn _ _ | n d Hn Hd | d _ Hd].
  - done.
  - apply field_name_nonempty in Hn. by destruct n.
  - done.
Qed.

Lemma split_dot_cons t s :
  no_dot t = true → split_dot (t +:+ String "." s) = t :: split_dot s.
Proof.
  induction t as [|c t IH]; [done |].
  simpl. intros [Hc Ht]%andb_true_iff.
  apply negb_true_iff in Hc. by rewrite Hc, IH.
Qed.

Lemma split_dot_one t : no_dot t = true → split_dot t = [t].
Proof.
  induction t as [|c t IH]; [done |].
  simpl. intros [Hc Ht]%andb_true_iff.
  apply negb_true_iff in Hc. by rewrite Hc, IH.
Qed.

Lemma concat_dotted t ts : String.concat "." (t :: ts) = t +:+ dotted ts.
Proof.
  revert t. induction ts as [|t' ts IH]; intros t.
  - simpl. by rewrite append_empty_r.
  - change (String.concat "." (t :: t' :: ts))
      with (t +:+ "." +:+ String.concat "." (t' :: ts)).
    by rewrite IH.
Qed.

Lemma split_dot_dotted t ts :
  no_dot t = true → Forall (fun x => no_dot x = true) ts →
  split_dot (t +:+ dotted ts) = t :: ts.
Proof.
  intros Ht Hts. revert t Ht.
  induction Hts as [|t' ts Ht' _ IH]; intros t Ht.
  - simpl. rewrite append_empty_r. by apply split_dot_one.
  - simpl. by rewrite split_dot_cons, IH.
Qed.

(** ** What getPaths reads in a token *)

Lemma token_paths_field n :
  string_forall is_word n = true → token_paths n = [PName n].
Proof. intros Hn. unfold token_paths. by rewrite pattern_exec_word. Qed.

Lemma bare_field_stops p n w r :
  bare_field n = true → n = w +:+ r → stops p r = true →
  match r with String "[" _ => False | _ => True end.
Proof.
  intros Hn -> _. unfold bare_field in Hn. rewrite string_forall_app in Hn.
  apply andb_true_iff in Hn as [_ Hr].
  destruct r as [|c r]; [done |]. simpl in Hr.
  by destruct c as [[] [] [] [] [] [] [] []].
Qed.

Lemma pattern_exec_bare n : bare_field n = true → pattern_exec n = None.
Proof.
  induction n as [|c n IH]; [done |].
  intros Hn. pose proof Hn as Hn'. unfold bare_field in Hn'. simpl in Hn'.
  apply andb_true_iff in Hn' as [_ Hn'].
  rewrite pattern_exec_eq, IH by done. unfold match_here.
  destruct (span is_word (String c n)) as [w r] eqn:Hspan.
  apply span_spec in Hspan as (Heq & _ & Hstop).
  pose proof (bare_field_stops is_word _ w r Hn Heq Hstop) as Hr.
  destruct r as [|c' r]; [done |].
  by destruct c' as [[] [] [] [] [] [] [] []].
Qed.

Lemma token_paths_bare n : bare_field n = true → token_paths n = [PName n].
Proof. intros Hn. unfold token_paths. by rewrite pattern_exec_bare. Qed.

Lemma token_paths_group n d post :
  string_forall is_word n = true → digits d = true →
  token_paths (n +:+ "[" +:+ d +:+ "]" +:+ post)
  = if decide (n = "") then [PIndex (Number d)]
    else [PName n; PIndex (Number d)].
Proof. intros Hn Hd. unfold token_paths. by rewrite pattern_exec_app. Qed.

Lemma getPaths_tokens name :
  name ≠ "" → getPaths name = flat_map token_paths (split_dot name).
Proof. intros Hne. unfold getPaths. by destruct (decide (name = "")). Qed.

Lemma token_paths_nonempty t : token_paths t ≠ [].
Proof.
  unfold token_paths. destruct (pattern_exec t) as [[m1 m2]|]; [| done].
  by destruct (decide (m1 = "")).
Qed.

Lemma split_dot_nonempty s : split_dot s ≠ [].
Proof.
  induction s as [|c s IH]; [done |]. simpl.
  destruct (Ascii.eqb c "."); [done |]. by destruct (split_dot s).
Qed.

Lemma getPaths_nonempty name : name ≠ "" → getPaths name ≠ [].
Proof.
  intros Hne. rewrite getPaths_tokens by done.
  pose proof (split_dot_nonempty name) as Hs.
  destruct (split_dot name) as [|t ts]; [done |]. simpl.
  pose proof (token_paths_nonempty t). by destruct (token_paths t).
Qed.

(** ** What formatPaths writes for a token *)

Lemma token_paths_named n d :
  field_name n = true → digits d = true →
  token_paths (n +:+ "[" +:+ d +:+ "]") = [PName n; PIndex (Number d)].
Proof.
  intros Hn Hd.
  pose proof (token_paths_group n d "" (field_name_word _ Hn) Hd) as H.
  pose proof (field_name_nonempty _ Hn).
  by destruct (decide (n = "")).
Qed.

Lemma token_paths_index d :
  digits d = true → token_paths ("[" +:+ d +:+ "]") = [PIndex (Number d)].
Proof. intros Hd. exact (token_paths_group "" d "" eq_refl Hd). Qed.

Lemma format_first t :
  token true t → fold_left format_step (token_paths t) "" = t.
Proof.
  intros [n _ _ Hn | n d Hn Hd | d _ Hd].
  - by rewrite token_paths_bare.
  - rewrite token_paths_named by auto using canonical_digits.
    simpl. by rewrite canonical_print.
  - rewrite token_paths_index by auto using canonical_digits.
    simpl. by rewrite canonical_print.
Qed.

Lemma format_next t acc :
  token false t → acc ≠ "" →
  fold_left format_step (token_paths t) acc = acc +:+ "." +:+ t.
Proof.
  intros Ht Hacc.
  assert (∀ n, n ≠ "" → format_step acc (PName n) = acc +:+ "." +:+ n) as Hstep.
  { intros n Hn. unfold format_step.
    by rewrite !bool_decide_eq_false_2 by done. }
  destruct Ht as [n Hne _ Hn | n d Hn Hd | d Hfirst Hd]; [| | done].
  - rewrite token_paths_bare by done.
    cbn [fold_left]. by rewrite Hstep.
  - rewrite token_paths_named by auto using canonical_digits.
    pose proof (field_name_nonempty _ Hn) as Hne.
    cbn [fold_left]. rewrite Hstep by done.
    unfold format_step. rewrite canonical_print by done.
    by rewrite !append_assoc.
Qed.

Lemma format_rest ts acc :
  Forall (token false) ts → acc ≠ "" →
  fold_left format_step (flat_map token_paths ts) acc = acc +:+ dotted ts.
Proof.
  intros Hts. revert acc. induction Hts as [|t ts Ht _ IH]; intros acc Hacc.
  - simpl. by rewrite append_empty_r.
  - simpl. rewrite fold_left_app, format_next by done.
    rewrite IH.
    + by rewrite !append_assoc.
    + by destruct acc.
Qed.

(** ** The claims about the path parser *)

(** C2, as stated, fails: the grammar admits an index alone after a dot and
    an index with a leading zero, and neither is written back as read. *)
Lemma round_trip_counterexample :
  (path_string "a.[0]" ∧ formatPaths (getPaths "a.[0]") = "a[0]")
  ∧ (path_string "a[01]" ∧ formatPaths (getPaths "a[01]") = "a[1]").
Proof.
  split; split; try reflexivity.
  - apply (path_dot "a" "[0]"); [by apply segment_field |].
    apply path_last. apply (segment_index "" "0"); [by left | done].
  - apply path_last. apply (segment_index "a" "01"); [by right | done].
Qed.

(** C2, amended: a dotted string of tokens, each a bare field (not empty,
    without dot or bracket) or a field name of word characters followed by
    one bracketed index, the first one possibly an index alone, every index
    a numeral without leading zero of a number up to 2^53, is what
    formatPaths writes for what getPaths reads in it. *)
Theorem formatPaths_getPaths t ts :
  token true t → Forall (token false) ts →
  formatPaths (getPaths (String.concat "." (t :: ts)))
  = String.concat "." (t :: ts).
Proof.
  intros Ht Hts. rewrite concat_dotted.
  rewrite getPaths_tokens.
  2: { pose proof (token_nonempty _ _ Ht). by destruct t. }
  rewrite split_dot_dotted.
  - unfold formatPaths. simpl. rewrite fold_left_app, format_first by done.
    apply format_rest; [done |]. by eapply token_nonempty.
  - by eapply token_no_dot.
  - eapply List.Forall_impl; [| exact Hts]. intros x. apply token_no_dot.
Qed.

Lemma formatPaths_getPaths_witness :
  token true "[3]" ∧ Forall (token false) ["tasks[10]"; "label"]
  ∧ formatPaths (getPaths "[3].tasks[10].label") = "[3].tasks[10].label".
Proof.
  assert (token true "[3]") as H1.
  { by apply (token_index true "3"). }
  assert (Forall (token false) ["tasks[10]"; "label"]) as H2.
  { apply Forall_cons; [| apply Forall_cons; [| apply Forall_nil]].
    - by apply (token_named_index false "tasks" "10").
    - by apply (token_field false "label"). }
  split; [exact H1 | split; [exact H2 |]].
  exact (formatPaths_getPaths "[3]" ["tasks[10]"; "label"] H1 H2).
Defined.

Lemma pattern_exec_none t : pattern_exec t = None ↔ ¬ occurs_in t.
Proof.
  split.
  - intros Hnone (pre & w & d & post & -> & Hw & Hd).
    destruct (pattern_exec_found pre w d post Hw Hd) as [m Hm]. congruence.
  - intros Hno. destruct (pattern_exec t) as [[w d]|] eqn:Hm; [| done].
    destruct Hno. apply pattern_exec_sound in Hm as (pre & post & ? & ? & ?).
    by exists pre, w, d, post.
Qed.

(** C4, as stated, fails: a token with two bracket groups is of neither
    pattern, and it is not kept as a field name; getPaths reads the first
    group and drops the rest. *)
Lemma malformed_token_counterexample :
  bare_field "a[0][1]" = false ∧ bracket_form "a[0][1]" = false
  ∧ getPaths "a[0][1]" = [PName "a"; PIndex 0]
  ∧ getPaths "x.a[0][1]" = [PName "x"; PName "a"; PIndex 0].
Proof. by repeat split. Qed.

(** C4, amended: getPaths reads a key token by token and never fails.  A
    token in which the pattern occurs nowhere is kept unchanged as one field
    name.  A token that begins with word characters, a bracketed group of
    digits that denote a number of at most 2^53, and anything after it
    yields the name (if any) and that one index: a second bracket group is
    not read as an index, it is dropped. *)
Theorem getPaths_tokens_literal name :
  name ≠ "" →
  getPaths name = flat_map token_paths (split_dot name)
  ∧ ∀ t, t ∈ split_dot name →
      (¬ occurs_in t → token_paths t = [PName t])
      ∧ (∀ n d post,
           t = n +:+ "[" +:+ d +:+ "]" +:+ post →
           string_forall is_word n = true → digits d = true →
           (Number d ≤ 9007199254740992)%N →
           token_paths t = if decide (n = "") then [PIndex (Number d)]
                           else [PName n; PIndex (Number d)]).
Proof.
  intros Hne. split; [by apply getPaths_tokens |].
  intros t _. split.
  - intros Hno. apply pattern_exec_none in Hno.
    unfold token_paths. by rewrite Hno.
  - intros n d post -> Hn Hd _. by apply token_paths_group.
Qed.

Lemma getPaths_tokens_literal_witness :
  "a[x].b[0][1]" ≠ ""
  ∧ (Number "0" ≤ 9007199254740992)%N
  ∧ getPaths "a[x].b[0][1]" = [PName "a[x]"; PName "b"; PIndex 0].
Proof.
  assert ("a[x].b[0][1]" ≠ "") as Hne by done.
  assert (Number "0" ≤ 9007199254740992)%N as Hle by (by vm_compute).
  split; [exact Hne | split; [exact Hle |]].
  destruct (getPaths_tokens_literal "a[x].b[0][1]" Hne) as [Hget Htok].
  rewrite Hget.
  change (split_dot "a[x].b[0][1]") with ["a[x]"; "b[0][1]"] in Htok |- *.
  destruct (Htok "a[x]") as [Hlit _]; [by left |].
  destruct (Htok "b[0][1]") as [_ Hgroup]; [by right; left |].
  cbn [flat_map].
  rewrite Hlit by by apply pattern_exec_none.
  by rewrite (Hgroup "b" "0" "[1]").
Defined.

(** ** Reading and writing properties *)

Lemma array_index_key k i :
  array_index k = Some i → k = number_to_string (N.of_nat i).
Proof.
  unfold array_index.
  destruct (bool_decide _ && _) eqn:H; [| done].
  apply andb_true_iff in H as [H%bool_decide_eq_true _].
  intros [= <-]. by rewrite N2Nat.id.
Qed.

Lemma array_index_inj k k' i :
  array_index k = Some i → array_index k' = Some i → k = k'.
Proof. intros ->%array_index_key ->%array_index_key. done. Qed.

Lemma length_array_store l i x :
  length (array_store l i x) = length l `max` S i.
Proof.
  unfold array_store. rewrite length_insert, length_app, length_replicate. lia.
Qed.

Lemma lookup_array_store l i x n :
  array_store l i x !! n =
  if decide (n = i) then Some (Some x)
  else if decide (n < length l) then l !! n
  else if decide (n < S i) then Some None
  else None.
Proof.
  unfold array_store. destruct (decide (n = i)) as [-> | Hne].
  - apply list_lookup_insert_eq. rewrite length_app, length_replicate. lia.
  - rewrite list_lookup_insert_ne by done.
    destruct (decide (n < length l)) as [Hlt | Hge].
    + by rewrite lookup_app_l.
    + rewrite lookup_app_r by lia.
      destruct (decide (n < S i)).
      * apply lookup_replicate_2. lia.
      * apply lookup_ge_None. rewrite length_replicate. lia.
Qed.

Lemma array_store_store l i x y :
  array_store (array_store l i x) i y = array_store l i y.
Proof.
  apply list_eq. intros n.
  rewrite !lookup_array_store, !length_array_store.
  repeat case_decide; try done; try lia.
Qed.

Lemma array_store_comm l i j x y :
  i ≠ j →
  array_store (array_store l i x) j y = array_store (array_store l j y) i x.
Proof.
  intros Hij. apply list_eq. intros n.
  rewrite !lookup_array_store, !length_array_store.
  repeat case_decide; try done; try lia.
Qed.

Lemma array_store_other l i j x :
  i ≠ j → mjoin (array_store l i x !! j) = mjoin (l !! j).
Proof.
  intros Hij. rewrite lookup_array_store.
  repeat case_decide; try done; try lia;
    by rewrite lookup_ge_None_2 by lia.
Qed.

Lemma is_object_store v k x : is_object (store v k x) = is_object v.
Proof. destruct v; simpl; try done. by destruct (array_index k). Qed.

Lemma kind_of_store v k x : kind_of (store v k x) = kind_of v.
Proof. destruct v; simpl; try done. by destruct (array_index k). Qed.

Lemma own_store_eq v k x : is_object v = true → own (store v k x) k = Some x.
Proof.
  destruct v; simpl; try done; intros _.
  - by rewrite lookup_insert_eq.
  - destruct (array_index k) as [i|] eqn:Hk; simpl; rewrite Hk.
    + rewrite lookup_array_store. by case_decide.
    + by rewrite lookup_insert_eq.
  - by rewrite lookup_insert_eq.
Qed.

Lemma own_store_ne v k k' x : k ≠ k' → own (store v k x) k' = own v k'.
Proof.
  intros Hne. destruct v; simpl; try done.
  - by rewrite lookup_insert_ne.
  - destruct (array_index k) as [i|] eqn:Hk; simpl;
      destruct (array_index k') as [j|] eqn:Hk'; try done.
    + rewrite array_store_other; [done |].
      intros ->. by destruct Hne; eapply array_index_inj.
    + by rewrite lookup_insert_ne.
  - by rewrite lookup_insert_ne.
Qed.

Lemma get_store_eq {H : Host} v k x :
  is_object v = true → get (store v k x) k = Ok x.
Proof.
  intros Hv. unfold get. rewrite kind_of_store, own_store_eq by done.
  by destruct v.
Qed.

Lemma nullish_store v k x : nullish (store v k x) = nullish v.
Proof. destruct v; simpl; try done. by destruct (array_index k). Qed.

Lemma get_store_ne {H : Host} v k k' x :
  k ≠ k' → get (store v k x) k' = get v k'.
Proof.
  intros Hne. unfold get.
  by rewrite kind_of_store, nullish_store, own_store_ne.
Qed.

Lemma peek_store_eq v k x : is_object v = true → peek (store v k x) k = x.
Proof. intros Hv. unfold peek. by rewrite own_store_eq. Qed.

Lemma store_store v k x y : store (store v k x) k y = store v k y.
Proof.
  destruct v; simpl; try done.
  - by rewrite insert_insert_eq.
  - destruct (array_index k) as [i|] eqn:Hk; simpl; rewrite Hk.
    + by rewrite array_store_store.
    + by rewrite insert_insert_eq.
  - by rewrite insert_insert_eq.
Qed.

Lemma store_comm v k k' x y :
  k ≠ k' → store (store v k x) k' y = store (store v k' y) k x.
Proof.
  intros Hne. destruct v; simpl; try done.
  - by rewrite insert_insert_ne.
  - destruct (array_index k) as [i|] eqn:Hk; simpl;
      destruct (array_index k') as [j|] eqn:Hk'; simpl; rewrite ?Hk, ?Hk'; try done.
    + rewrite array_store_comm; [done |].
      intros ->. by destruct Hne; eapply array_index_inj.
    + by rewrite insert_insert_ne.
  - by rewrite insert_insert_ne.
Qed.

Lemma object_not_nullish v : is_object v = true → nullish v = false.
Proof. by destruct v. Qed.

Lemma container_object v : is_container v = true → is_object v = true.
Proof. by destruct v. Qed.

Lemma is_container_store v k x : is_container (store v k x) = is_container v.
Proof. destruct v; simpl; try done. by destruct (array_index k). Qed.

Lemma fresh_container n : is_container (fresh n) = true.
Proof. unfold fresh. by destruct (is_number n). Qed.

Lemma fresh_object n : is_object (fresh n) = true.
Proof. apply container_object, fresh_container. Qed.

(** An assignment to an object succeeds wherever the read does. *)
Lemma get_set {H : Host} v k old x :
  is_object v = true → get v k = Ok old → set v k x = Ok (store v k x).
Proof.
  unfold get, set. intros Hv. rewrite Hv.
  destruct (kind_of v) as [kd|]; [| done].
  by destruct (own v k), (member_of kd k) as [[]|].
Qed.

Lemma set_ok {H : Host} v k x r :
  set v k x = Ok r → is_object v = true ∧ r = store v k x.
Proof.
  unfold set. destruct (kind_of v) as [kd|]; [| done].
  destruct (is_object v).
  - destruct (own v k), (member_of kd k) as [[]|]; try done;
      by intros [= <-].
  - by destruct (own v k), (member_of kd k) as [[]|].
Qed.

(** ** Ordinary keys *)

Lemma ordinary_exact {H : Host} k : ordinary k = true → exact k = true.
Proof. by intros [? _]%andb_true_iff. Qed.

Lemma ordinary_member {H : Host} k v kd :
  ordinary k = true → is_container v = true → kind_of v = Some kd →
  member_of kd (prop_key k) = None.
Proof.
  intros [_ Hall]%andb_true_iff Hv Hkd. simpl in Hall.
  apply andb_true_iff in Hall as [Hobj [Harr _]%andb_true_iff].
  destruct v; try done; injection Hkd as <-.
  - by destruct (member_of KObject (prop_key k)).
  - by destruct (member_of KArray (prop_key k)).
Qed.

Lemma ordinary_path_cons {H : Host} k p :
  ordinary_path (k :: p) = true ↔ ordinary k = true ∧ ordinary_path p = true.
Proof. apply andb_true_iff. Qed.

(** On an ordinary key, a plain object or an array gives its own property
    or [undefined]. *)
Lemma get_ordinary {H : Host} v k :
  ordinary k = true → is_container v = true →
  get v (prop_key k) = Ok (peek v (prop_key k)).
Proof.
  intros Hk Hv. unfold get, peek.
  destruct (kind_of v) as [kd|] eqn:Hkd; [| by destruct v].
  destruct (own v (prop_key k)); [done |].
  by rewrite (ordinary_member k v kd).
Qed.

Lemma peek_fresh n k : peek (fresh n) k = VUndefined.
Proof.
  unfold fresh, peek. destruct (is_number n); simpl; [| done].
  by destruct (array_index k).
Qed.

Lemma get_fresh {H : Host} n k :
  ordinary k = true → get (fresh n) (prop_key k) = Ok VUndefined.
Proof.
  intros Hk. rewrite get_ordinary by auto using fresh_container.
  by rewrite peek_fresh.
Qed.

(** ** The loop of setValue *)

Lemma bind_ok {A B} (m : result A) (k : A → result B) b :
  bind m k = Ok b ↔ ∃ a, m = Ok a ∧ k a = Ok b.
Proof.
  destruct m as [a | e]; simpl.
  - split; [by exists a | by intros (? & [= <-] & ?)].
  - split; [done | by intros (? & ? & ?)].
Qed.

Lemma walk_nullish {H : Host} f v p : nullish v = true → walk f v p = Ok v.
Proof. intros Hv. destruct p; simpl; [done | by rewrite Hv]. Qed.

Lemma walk_cons {H : Host} f v k rest :
  walk f v (k :: rest)
  = if nullish v then Ok v
    else if negb (exact k) then Throw Unmodelled
    else
      let* prev := get v (prop_key k) in
      let* newValue :=
        match rest with
        | [] => f prev
        | next :: _ => Ok (coalesce prev (fresh next))
        end in
      let* pointer' := set v (prop_key k) newValue in
      let* child := walk f newValue rest in
      set pointer' (prop_key k) child.
Proof. done. Qed.

(** One turn of the loop on an object: the slot under the key receives what
    the rest of the loop makes of the value it held. *)
Lemma walk_object {H : Host} f v k rest :
  is_object v = true → exact k = true →
  walk f v (k :: rest)
  = let* old := get v (prop_key k) in
    let* c := slot f old rest in Ok (store v (prop_key k) c).
Proof.
  intros Hv Hk. rewrite walk_cons.
  rewrite (object_not_nullish v Hv), Hk. cbn [negb].
  destruct (get v (prop_key k)) as [old | e] eqn:Hold; cbn [bind]; [| done].
  unfold slot.
  destruct (match rest with [] => _ | _ => _ end) as [nv | e]; cbn [bind];
    [| done].
  rewrite (get_set v _ old) by done. cbn [bind].
  destruct (walk f nv rest) as [c | e]; cbn [bind]; [| done].
  rewrite (get_set _ _ nv) by (by rewrite ?is_object_store, ?get_store_eq).
  by rewrite store_store.
Qed.

Lemma walk_primitive {H : Host} f v k rest r :
  walk f v (k :: rest) = Ok r → is_object v = true ∨ nullish v = true.
Proof.
  destruct (is_object v) eqn:Hobj; [by left |].
  destruct (nullish v) eqn:Hnull; [by right |].
  rewrite walk_cons, Hnull. destruct (exact k); [| done]. cbn [negb].
  destruct (get v (prop_key k)) as [prev | e]; cbn [bind]; [| done].
  destruct (match rest with [] => _ | _ => _ end) as [nv | e]; cbn [bind];
    [| done].
  destruct (set v (prop_key k) nv) as [v1 | e] eqn:Hset; [| done].
  apply set_ok in Hset as [? _]. congruence.
Qed.

Lemma walk_exact {H : Host} f v k rest r :
  nullish v = false → walk f v (k :: rest) = Ok r → exact k = true.
Proof.
  intros Hnull. rewrite walk_cons, Hnull. by destruct (exact k).
Qed.

Lemma walk_result_object {H : Host} f v k rest r :
  nullish v = false → walk f v (k :: rest) = Ok r → is_object r = true.
Proof.
  intros Hnull Hwalk.
  destruct (walk_primitive _ _ _ _ _ Hwalk) as [Hobj | ?]; [| congruence].
  rewrite walk_object in Hwalk by eauto using walk_exact.
  apply bind_ok in Hwalk as (old & _ & (c & _ & [= <-])%bind_ok).
  by rewrite is_object_store.
Qed.

Lemma coalesce_not_nullish old n : nullish (coalesce old (fresh n)) = false.
Proof.
  unfold coalesce. destruct (nullish old) eqn:H; [| done].
  apply object_not_nullish, fresh_object.
Qed.

Lemma coalesce_object v n : is_object v = true → coalesce v (fresh n) = v.
Proof. intros Hv. unfold coalesce. by rewrite object_not_nullish. Qed.

Lemma slot_cons {H : Host} f old n rest :
  slot f old (n :: rest) = walk f (coalesce old (fresh n)) (n :: rest).
Proof. done. Qed.

Lemma slot_nonempty {H : Host} f old p :
  p ≠ [] → ∃ n, slot f old p = walk f (coalesce old (fresh n)) p.
Proof. destruct p as [|n p]; [done |]. intros _. by exists n. Qed.

(** ** What a path addresses *)

Lemma lookup_path_cons {H : Host} v k rest :
  nullish v = false → exact k = true →
  lookup_path v (k :: rest)
  = let* x := get v (prop_key k) in lookup_path x rest.
Proof. intros Hv Hk. cbn [lookup_path]. by rewrite Hv, Hk. Qed.

Lemma lookup_path_nullish {H : Host} v q :
  nullish v = true → q ≠ [] → lookup_path v q = Ok VUndefined.
Proof. intros Hv Hq. destruct q as [|k q]; [done |]. simpl. by rewrite Hv. Qed.

Lemma lookup_path_undefined {H : Host} q : lookup_path VUndefined q = Ok VUndefined.
Proof. by destruct q. Qed.

Lemma lookup_path_fresh {H : Host} n q :
  ordinary_path q = true → q ≠ [] → lookup_path (fresh n) q = Ok VUndefined.
Proof.
  destruct q as [|k q]; [done |]. intros [Hk _]%ordinary_path_cons _.
  rewrite lookup_path_cons;
    [| apply object_not_nullish, fresh_object | by apply ordinary_exact].
  rewrite get_fresh by done. cbn [bind]. apply lookup_path_undefined.
Qed.

Lemma lookup_path_coalesce {H : Host} old n q :
  ordinary_path q = true → q ≠ [] →
  lookup_path (coalesce old (fresh n)) q = lookup_path old q.
Proof.
  intros Hq Hne. unfold coalesce. destruct (nullish old) eqn:Hnull; [| done].
  by rewrite lookup_path_fresh, lookup_path_nullish.
Qed.

(** The loop applies [valueFn] to what the path addresses and leaves its
    result there. *)
Lemma walk_lookup {H : Host} f v p v' :
  is_object v = true → p ≠ [] → ordinary_path p = true →
  walk f v p = Ok v' →
  is_object v' = true
  ∧ ∃ prev x, lookup_path v p = Ok prev ∧ f prev = Ok x
              ∧ lookup_path v' p = Ok x.
Proof.
  revert v v'. induction p as [|k rest IH]; [done |].
  intros v v' Hv _ [Hk Hrest]%ordinary_path_cons.
  pose proof (ordinary_exact k Hk) as Hexact.
  rewrite walk_object by done.
  intros (old & Hold & (c & Hslot & [= <-])%bind_ok)%bind_ok.
  split; [by rewrite is_object_store |].
  rewrite (lookup_path_cons v) by auto using object_not_nullish.
  rewrite (lookup_path_cons (store _ _ _));
    [| apply object_not_nullish; by rewrite is_object_store | done].
  rewrite Hold, get_store_eq by done. cbn [bind].
  unfold slot in Hslot. destruct rest as [|n rest].
  - apply bind_ok in Hslot as (nv & Hf & [= <-]). by exists old, nv.
  - cbn [bind] in Hslot.
    destruct (walk_primitive _ _ _ _ _ Hslot) as [Hobj | Hnull].
    + destruct (IH _ _ Hobj ltac:(done) Hrest Hslot)
        as (_ & prev & x & Hprev & Hf & Hx).
      exists prev, x. by rewrite lookup_path_coalesce in Hprev.
    + by rewrite coalesce_not_nullish in Hnull.
Qed.

Lemma passable_fresh n p : passable (fresh n) p.
Proof.
  destruct p as [|k [|k' rest]]; simpl; [done | ..].
  - by rewrite fresh_container.
  - rewrite fresh_container, peek_fresh. auto.
Qed.

Lemma passable_empty p : passable (VObject ∅) p.
Proof. exact (passable_fresh (PName "") p). Qed.

Lemma passable_container v k rest :
  passable v (k :: rest) → is_container v = true.
Proof. by intros [? _]. Qed.

(** Along a passable path of ordinary segments the loop does not throw
    unless [valueFn] does. *)
Lemma walk_passable {H : Host} f v p prev x :
  passable v p → p ≠ [] → ordinary_path p = true →
  lookup_path v p = Ok prev → f prev = Ok x →
  ∃ v', walk f v p = Ok v' ∧ passable v' p ∧ lookup_path v' p = Ok x.
Proof.
  revert v. induction p as [|k rest IH]; [done |].
  intros v [Hv Hrest] _ [Hk Hord]%ordinary_path_cons Hprev Hf.
  pose proof (container_object v Hv) as Hobj.
  pose proof (ordinary_exact k Hk) as Hexact.
  rewrite walk_object by done.
  rewrite lookup_path_cons in Hprev by auto using object_not_nullish.
  rewrite get_ordinary in Hprev |- * by done. cbn [bind] in Hprev |- *.
  assert (∀ c, lookup_path (store v (prop_key k) c) (k :: rest)
               = lookup_path c rest) as Hafter.
  { intros c. rewrite lookup_path_cons;
      [| apply object_not_nullish; by rewrite is_object_store | done].
    by rewrite get_store_eq. }
  unfold slot. destruct rest as [|n rest].
  - injection Hprev as <-.
    rewrite Hf. cbn [bind walk]. eexists. split; [done |].
    rewrite Hafter. split; [| done]. simpl. by rewrite is_container_store.
  - cbn [bind]. rewrite <- (lookup_path_coalesce _ n) in Hprev by done.
    destruct (IH (coalesce (peek v (prop_key k)) (fresh n))) with (4 := Hprev)
      as (c & -> & Hc & Hx); [| done | done | done |].
    + unfold coalesce. destruct Hrest as [-> | Hp].
      * apply passable_fresh.
      * by rewrite (object_not_nullish _
                      (container_object _ (passable_container _ _ _ Hp))).
    + cbn [bind]. eexists. split; [done |].
      rewrite Hafter. split; [| done].
      split; [by rewrite is_container_store |].
      right. by rewrite peek_store_eq.
Qed.

(** ** Building a record *)

Lemma merged_throw nexts e :
  fold_left (fun acc next => let* prev := acc in merge next prev) nexts (Throw e)
  = Throw e.
Proof. induction nexts; [done | by simpl]. Qed.

Lemma getPaths_plain k : plain_key k = true → getPaths k = [PName k].
Proof.
  intros [[Hne%negb_true_iff%bool_decide_eq_false Hdot]%andb_true_iff
    Hbare]%andb_true_iff.
  rewrite getPaths_tokens, split_dot_one by done. simpl.
  by rewrite token_paths_bare.
Qed.

Section BuilderFacts.

Context {H : Host}.

Variable JSON_parse : string → option value.

Lemma toRecord_app l1 l2 r :
  toRecord JSON_parse (l1 ++ l2) r
  = let* r' := toRecord JSON_parse l1 r in toRecord JSON_parse l2 r'.
Proof.
  revert r. induction l1 as [|[k raw] l1 IH]; intros r; [done |].
  simpl. destruct (setValue r k _); simpl; [apply IH | done].
Qed.

(** One entry: the slot its key addresses receives the merge of its value
    into what the slot held. *)
Lemma setValue_passable r k next prev x :
  k ≠ "" → ordinary_path (getPaths k) = true → passable r (getPaths k) →
  lookup_path r (getPaths k) = Ok prev → merge next prev = Ok x →
  ∃ r', setValue r k (merge next) = Ok r'
        ∧ passable r' (getPaths k) ∧ lookup_path r' (getPaths k) = Ok x.
Proof.
  intros Hk Hord Hr Hprev Hm. eapply walk_passable; try done.
  by apply getPaths_nonempty.
Qed.

(** Entries of one key, in a row. *)
Lemma toRecord_same_key k raws r prev x :
  k ≠ "" → ordinary_path (getPaths k) = true → passable r (getPaths k) →
  lookup_path r (getPaths k) = Ok prev →
  merged (coerce JSON_parse <$> raws) prev = Ok x →
  ∃ r', toRecord JSON_parse (pair k <$> raws) r = Ok r'
        ∧ passable r' (getPaths k) ∧ lookup_path r' (getPaths k) = Ok x.
Proof.
  intros Hk Hord. revert r prev.
  induction raws as [|raw raws IH]; intros r prev Hr Hprev.
  - intros [= <-]. by exists r.
  - unfold merged. simpl.
    destruct (merge (coerce JSON_parse raw) prev) as [y | e] eqn:Hm;
      [| by rewrite merged_throw].
    intros Hrest.
    destruct (setValue_passable r k _ prev y Hk Hord Hr Hprev Hm)
      as (r1 & -> & Hr1 & Hy).
    simpl. by apply (IH r1 y).
Qed.

(** Entries of one key, building from the empty record. *)
Lemma toRecord_one_key k raws x :
  k ≠ "" → ordinary_path (getPaths k) = true →
  merged (coerce JSON_parse <$> raws) VUndefined = Ok x →
  ∃ record, toRecord JSON_parse (pair k <$> raws) (VObject ∅) = Ok record
            ∧ lookup_path record (getPaths k) = Ok x.
Proof.
  intros Hk Hord Hx.
  destruct (toRecord_same_key k raws (VObject ∅) VUndefined x)
    as (r & Hr & _ & Hl); [done | done | apply passable_empty | | done |
                           by exists r].
  apply (lookup_path_fresh (PName "")); [done |]. by apply getPaths_nonempty.
Qed.

Lemma coerce_fallback s :
  s ≠ "" → JSON_parse s = None → coerce JSON_parse (EString s) = VStr s.
Proof.
  intros Hs Hp. unfold coerce, safeParseJSON.
  by rewrite bool_decide_eq_false_2, Hp.
Qed.

Lemma coerce_parsed s v :
  s ≠ "" → JSON_parse s = Some v → coerce JSON_parse (EString s) = v.
Proof.
  intros Hs Hp. unfold coerce, safeParseJSON.
  by rewrite bool_decide_eq_false_2, Hp.
Qed.

Lemma coerce_empty : coerce JSON_parse (EString "") = VUndefined.
Proof. done. Qed.

End BuilderFacts.

(** ** The claims about repeated keys *)










(** ** The merge at the final slot *)

(** C1, as stated, fails: the callback tests truthiness, not absence, so a
    previous [false] is replaced instead of being paired with the next
    value, and a next [false] is dropped; and [concat] spreads a next value
    that is itself an array instead of appending it as one element. *)
Lemma merge_counterexample :
  (merge (VStr "a") (VBool false) = Ok (VStr "a")
   ∧ spec_merge (VStr "a") (VBool false) = array_of [VBool false; VStr "a"])
  ∧ (merge (VBool false) (VStr "a") = Ok (VStr "a")
     ∧ spec_merge (VBool false) (VStr "a") = array_of [VStr "a"; VBool false])
  ∧ (merge (array_of [VStr "c"]) (array_of [VStr "a"; VStr "b"])
     = Ok (array_of [VStr "a"; VStr "b"; VStr "c"])
     ∧ spec_merge (array_of [VStr "c"]) (array_of [VStr "a"; VStr "b"])
       = array_of [VStr "a"; VStr "b"; array_of [VStr "c"]])
  ∧ toRecord (H := standard) json_literals
      [("p", EString "false"); ("p", EString "a")] (VObject ∅)
    = Ok (VObject {[ "p" := VStr "a" ]}).
Proof. repeat split; vm_compute; reflexivity. Qed.

Lemma concat_ok elems next x :
  concat elems next = Ok x →
  x = VArray (elems ++ match next with
                       | VArray items _ => items
                       | _ => [Some next]
                       end) ∅.
Proof.
  unfold concat. destruct (_ <=? _)%N; [| done]. by intros [= <-].
Qed.

(** C1, amended: whenever an entry is stored under a key whose segments are
    ordinary (no segment names a member that the platform gives to objects,
    and every index is at most 2^53), the slot the key addresses holds
    afterwards: the next value if the previous occupant was falsy
    (undefined, null, false, zero, NaN or the empty string); else the
    previous occupant, unchanged, if the next value is falsy; else, if the
    previous occupant is an array, a new array of its elements followed by
    the next value, or by the elements of the next value when that is an
    array too; else the two-element array of the previous occupant and the
    next value. *)
Theorem merge_rules {H : Host} (JSON_parse : string → option value)
    (record record' : value) (key : string) (raw : entry_value) :
  is_object record = true → key ≠ "" → ordinary_path (getPaths key) = true →
  setValue record key (merge (coerce JSON_parse raw)) = Ok record' →
  ∃ prev result,
    lookup_path record (getPaths key) = Ok prev
    ∧ lookup_path record' (getPaths key) = Ok result
    ∧ let next := coerce JSON_parse raw in
      (truthy prev = false → result = next)
      ∧ (truthy prev = true → truthy next = false → result = prev)
      ∧ (truthy prev = true → truthy next = true →
         ∀ elems props, prev = VArray elems props →
           result = VArray (elems ++ match next with
                                     | VArray items _ => items
                                     | _ => [Some next]
                                     end) ∅)
      ∧ (truthy prev = true → truthy next = true → isArray prev = false →
         result = array_of [prev; next]).
Proof.
  intros Hobj Hkey Hord Hset.
  destruct (walk_lookup _ _ _ _ Hobj (getPaths_nonempty key Hkey) Hord Hset)
    as (_ & prev & result & Hprev & Hmerge & Hresult).
  exists prev, result. split; [done |]. split; [done |].
  intros next. fold next in Hmerge. unfold merge in Hmerge. repeat split.
  - intros Hp. rewrite Hp in Hmerge. simpl in Hmerge. congruence.
  - intros Hp Hn. rewrite Hp, Hn in Hmerge. simpl in Hmerge. congruence.
  - intros Hp Hn elems props Heq.
    rewrite Hp, Hn, Heq in Hmerge. simpl in Hmerge.
    by apply concat_ok in Hmerge.
  - intros Hp Hn Harr. rewrite Hp, Hn in Hmerge. simpl in Hmerge.
    destruct prev; try done; congruence.
Qed.

Lemma merge_rules_witness :
  is_object (VObject {[ "tags" := array_of [VStr "a"; VStr "b"] ]}) = true
  ∧ "tags" ≠ ""
  ∧ ordinary_path (H := standard) (getPaths "tags") = true
  ∧ lookup_path (H := standard)
      (VObject {[ "tags" := array_of [VStr "a"; VStr "b"; VStr "c"] ]})
      (getPaths "tags")
    = Ok (array_of [VStr "a"; VStr "b"; VStr "c"]).
Proof.
  assert ("tags" ≠ "") as Hkey by done.
  assert (ordinary_path (H := standard) (getPaths "tags") = true) as Hord
    by by vm_compute.
  repeat (split; [done |]).
  destruct (merge_rules (H := standard) json_literals
    (VObject {[ "tags" := array_of [VStr "a"; VStr "b"] ]})
    (VObject {[ "tags" := array_of [VStr "a"; VStr "b"; VStr "c"] ]})
    "tags" (EString "c") eq_refl Hkey Hord)
    as (prev & result & Hprev & Hresult & _ & _ & Harr & _);
    [by vm_compute |].
  rewrite Hresult. f_equal.
  assert (lookup_path (H := standard)
            (VObject {[ "tags" := array_of [VStr "a"; VStr "b"] ]})
            (getPaths "tags")
          = Ok (array_of [VStr "a"; VStr "b"])) as Hread by by vm_compute.
  rewrite Hread in Hprev. injection Hprev as <-.
  exact (Harr eq_refl eq_refl [Some (VStr "a"); Some (VStr "b")] ∅ eq_refl).
Defined.

(** ** Coercion *)

(** C7: an empty string and a file with an empty name and no content become
    undefined; any other string becomes what JSON.parse makes of it, and
    itself when JSON.parse throws; any other file is kept as it is, whatever
    JSON.parse would do. *)
Theorem coerce_rules (JSON_parse : string → option value) :
  coerce JSON_parse (EString "") = VUndefined
  ∧ coerce JSON_parse (EFile "" 0) = VUndefined
  ∧ (∀ s v, s ≠ "" → JSON_parse s = Some v → coerce JSON_parse (EString s) = v)
  ∧ (∀ s, s ≠ "" → JSON_parse s = None → coerce JSON_parse (EString s) = VStr s)
  ∧ (∀ name size, name ≠ "" ∨ size ≠ 0%N →
       coerce JSON_parse (EFile name size) = VFile name size ∅).
Proof.
  repeat split; try done.
  - intros s v. apply coerce_parsed.
  - intros s. apply coerce_fallback.
  - intros name size Hne. unfold coerce.
    destruct (bool_decide (name = "") && (size =? 0)%N) eqn:H; [| done].
    apply andb_true_iff in H as [Hn%bool_decide_eq_true Hs%N.eqb_eq].
    by destruct Hne.
Qed.

Lemma coerce_rules_witness :
  coerce json_literals (EString "false") = VBool false
  ∧ coerce json_literals (EString "john") = VStr "john"
  ∧ coerce json_literals (EFile "" 12) = VFile "" 12 ∅.
Proof.
  destruct (coerce_rules json_literals) as (_ & _ & Hparsed & Hkept & Hfile).
  split; [by apply Hparsed | split; [by apply Hkept |]].
  apply Hfile. by right.
Defined.

(** ** The request adapter *)

Lemma prefix_spec n h : String.prefix n h = true ↔ ∃ post, h = n +:+ post.
Proof.
  revert n. induction h as [|c' h IH]; intros [|c n]; simpl.
  - split; [by exists "" | done].
  - split; [done | by intros [? ?]].
  - split; [by exists (String c' h) | done].
  - destruct (ascii_dec c c') as [<- | Hne].
    + rewrite IH. split; intros [post H]; exists post; congruence.
    + split; [done | intros [post [= ? ?]]; congruence].
Qed.

(** [includes] finds the needle wherever it stands. *)
Lemma includes_spec h n :
  includes h n = true ↔ ∃ pre post, h = pre +:+ n +:+ post.
Proof.
  induction h as [|c h IH].
  - change (includes "" n) with (String.prefix n "" || false).
    rewrite orb_false_r, prefix_spec. split.
    + intros [post ->]. by exists "", post.
    + intros (pre & post & H). destruct pre; [by exists post | done].
  - change (includes (String c h) n)
      with (String.prefix n (String c h) || includes h n).
    rewrite orb_true_iff, IH, prefix_spec. split.
    + intros [[post ->] | (pre & post & ->)];
        [by exists "", post | by exists (String c pre), post].
    + intros (pre & post & H). destruct pre as [|c' pre].
      * left. by exists post.
      * right. exists pre, post. simpl in H. congruence.
Qed.

Lemma containsFormData_spec request :
  containsFormData request = true
  ↔ ∃ c, contentType request = Some c ∧ includes c "multipart/form-data" = true.
Proof.
  unfold containsFormData. destruct (contentType request) as [c|].
  - split.
    + intros [_ H]%andb_true_iff. by exists c.
    + intros (? & [= <-] & H). rewrite H, andb_true_r.
      apply negb_true_iff, bool_decide_eq_false. by intros ->.
  - split; [done | by intros (? & ? & ?)].
Qed.

(** Two values under one plain, ordinary key, into an empty record. *)
Lemma toRecord_pair {H : Host} JSON_parse k a b :
  plain_key k = true → ordinary (PName k) = true →
  a ≠ "" → b ≠ "" → JSON_parse a = None → JSON_parse b = None →
  toRecord JSON_parse [(k, EString a); (k, EString b)] (VObject ∅)
  = Ok (VObject {[ k := array_of [VStr a; VStr b] ]}).
Proof.
  intros Hplain Hk Ha Hb Hpa Hpb.
  pose proof (ordinary_exact _ Hk) as Hexact.
  assert (walk (merge (VStr a)) (VObject ∅) [PName k]
          = Ok (VObject {[ k := VStr a ]})) as Hfirst.
  { rewrite walk_object, get_ordinary by done.
    unfold slot, peek. simpl own. by rewrite lookup_empty. }
  assert (walk (merge (VStr b)) (VObject {[ k := VStr a ]}) [PName k]
          = Ok (VObject {[ k := array_of [VStr a; VStr b] ]})) as Hsecond.
  { rewrite walk_object, get_ordinary by done.
    unfold slot, peek. simpl own. rewrite lookup_singleton_eq.
    cbn [default bind]. unfold merge. simpl truthy.
    rewrite !bool_decide_eq_false_2 by done.
    cbn [negb bind walk store prop_key id]. by rewrite insert_singleton_eq. }
  cbn [toRecord]. unfold setValue.
  rewrite getPaths_plain by done.
  rewrite !coerce_fallback by done.
  rewrite Hfirst. cbn [bind]. by rewrite Hsecond.
Qed.

(** C8: a request whose Content-Type header is missing or does not contain
    [multipart/form-data] is handled by parseQueryAsync alone.  Otherwise
    the form is read and the record is built from the entries of the form
    followed by one entry for every parameter of the query, in the order of
    the query, each with its key and its value as a string: from the form
    first, then from the query on top of it.  So a key that the form gives
    the value [a] and the query the value [b] holds the array of [a] and
    [b], in this order. *)
Theorem parseRequestAsync_rules {H : Host} (JSON_parse : string → option value)
    (searchParams : string → result (list (string * string)))
    (Output : Type) (schema_parse : value → result Output) (record0 : value)
    (request : Request) :
  ((contentType request = None
    ∨ ∃ c, contentType request = Some c
           ∧ includes c "multipart/form-data" = false) →
   parseRequestAsync JSON_parse searchParams Output schema_parse record0 request
   = parseQueryAsync JSON_parse searchParams Output schema_parse record0
       (QueryRequest request))
  ∧ ((∃ c, contentType request = Some c
           ∧ includes c "multipart/form-data" = true) →
     parseRequestAsync JSON_parse searchParams Output schema_parse record0 request
     = let* form := formData request in
       let* params := searchParams (url request) in
       let* record :=
         toRecord JSON_parse
           (form ++ map (fun kv => (kv.1, EString kv.2)) params) record0 in
       schema_parse record)
  ∧ (∀ form params,
       toRecord JSON_parse
         (form ++ map (fun kv => (kv.1, EString kv.2)) params) record0
       = let* built := toRecord JSON_parse form record0 in
         toRecord JSON_parse (map (fun kv => (kv.1, EString kv.2)) params) built)
  ∧ (∀ k a b,
       plain_key k = true → ordinary (PName k) = true →
       a ≠ "" → b ≠ "" → JSON_parse a = None → JSON_parse b = None →
       toRecord JSON_parse
         ([(k, EString a)] ++ map (fun kv => (kv.1, EString kv.2)) [(k, b)])
         (VObject ∅)
       = Ok (VObject {[ k := array_of [VStr a; VStr b] ]})).
Proof.
  repeat split.
  - intros Hno. unfold parseRequestAsync.
    destruct (containsFormData request) eqn:Hc; [| done].
    apply containsFormData_spec in Hc as (c & Hc & Hin).
    destruct Hno as [Hno | (c' & Hc' & Hout)]; congruence.
  - intros Hyes. apply containsFormData_spec in Hyes.
    unfold parseRequestAsync. by rewrite Hyes.
  - intros form params. apply toRecord_app.
  - intros k a b. apply toRecord_pair.
Qed.

Lemma parseRequestAsync_rules_witness :
  parseRequestAsync (H := standard) json_literals
    (fun _ => Ok [("tag", "b"); ("page", "0")]) value Ok (VObject ∅)
    {| url := "https://example.com?tag=b&page=0";
       contentType := Some "multipart/form-data; boundary=x";
       formData := Ok [("tag", EString "a")] |}
  = Ok (VObject {[ "tag" := array_of [VStr "a"; VStr "b"];
                   "page" := VNum 0 ]}).
Proof.
  destruct (parseRequestAsync_rules (H := standard) json_literals
              (fun _ => Ok [("tag", "b"); ("page", "0")]) value Ok (VObject ∅)
              {| url := "https://example.com?tag=b&page=0";
                 contentType := Some "multipart/form-data; boundary=x";
                 formData := Ok [("tag", EString "a")] |})
    as (_ & Hform & _).
  rewrite Hform; [by vm_compute |].
  by exists "multipart/form-data; boundary=x".
Defined.

(** ** The transformer zt.json *)

(** C9: null and undefined are returned as they are and nothing is
    reported; a string that JSON.parse rejects, or whose value the schema
    rejects, reports the issue and gives NEVER; otherwise the result is what
    the schema made of the decoded value, and nothing is reported. *)
Theorem json_rules (JSON_parse : string → option value) (Output : Type)
    (schema_parse : value → result Output) (ctx : list zt.issue) :
  zt.json JSON_parse Output schema_parse zt.INull ctx = (zt.Same zt.INull, ctx)
  ∧ zt.json JSON_parse Output schema_parse zt.IUndefined ctx
    = (zt.Same zt.IUndefined, ctx)
  ∧ (∀ s, JSON_parse s = None →
       zt.json JSON_parse Output schema_parse (zt.IString s) ctx
       = (zt.NEVER,
          ctx ++ [{| zt.code := "custom";
                     zt.message := "Must be a valid JSON string." |}]))
  ∧ (∀ s parsed e, JSON_parse s = Some parsed → schema_parse parsed = Throw e →
       zt.json JSON_parse Output schema_parse (zt.IString s) ctx
       = (zt.NEVER,
          ctx ++ [{| zt.code := "custom";
                     zt.message := "Must be a valid JSON string." |}]))
  ∧ (∀ s parsed o, JSON_parse s = Some parsed → schema_parse parsed = Ok o →
       zt.json JSON_parse Output schema_parse (zt.IString s) ctx
       = (zt.Parsed o, ctx)).
Proof.
  repeat split.
  - intros s Hs. simpl. by rewrite Hs.
  - intros s parsed e Hs He. simpl. by rewrite Hs, He.
  - intros s parsed o Hs Ho. simpl. by rewrite Hs, Ho.
Qed.

Lemma json_rules_witness :
  zt.json json_literals bool
    (fun v => match v with VBool b => Ok b | _ => Throw ZodError end)
    (zt.IString "null") []
  = (zt.NEVER, [{| zt.code := "custom";
                   zt.message := "Must be a valid JSON string." |}]).
Proof.
  destruct (json_rules json_literals bool
              (fun v => match v with VBool b => Ok b | _ => Throw ZodError end)
              []) as (_ & _ & _ & Hschema & _).
  exact (Hschema "null" VNull ZodError eq_refl eq_refl).
Defined.

(** ** The order of entries *)

Lemma independent_cons a p b q :
  independent (a :: p) (b :: q) = true →
  (a = b ∧ independent p q = true)
  ∨ (prop_key a ≠ prop_key b ∧ is_number a = is_number b).
Proof.
  simpl. destruct (decide (a = b)) as [-> | Hne]; [by left |].
  intros [[[Hk%negb_true_iff%bool_decide_eq_false Hn%bool_decide_eq_true]%andb_true_iff
    _]%andb_true_iff _]%andb_true_iff.
  by right.
Qed.

Lemma independent_fresh a p b q :
  independent (a :: p) (b :: q) = true → fresh a = fresh b.
Proof.
  intros [[-> _] | [_ Hn]]%independent_cons; [done |].
  unfold fresh. by rewrite Hn.
Qed.

(** Two entries in a row, on an object: the slots they leave. *)
Lemma walk_twice {H : Host} f1 f2 v a p b q r :
  is_object v = true → exact a = true → exact b = true →
  (let* v1 := walk f1 v (a :: p) in walk f2 v1 (b :: q)) = Ok r
  ↔ ∃ old1 c1 old2 c2,
      get v (prop_key a) = Ok old1 ∧ slot f1 old1 p = Ok c1
      ∧ get (store v (prop_key a) c1) (prop_key b) = Ok old2
      ∧ slot f2 old2 q = Ok c2
      ∧ r = store (store v (prop_key a) c1) (prop_key b) c2.
Proof.
  intros Hv Ha Hb. rewrite bind_ok, walk_object by done. split.
  - intros (v1 & (old1 & Hold1 & (c1 & Hc1 & [= <-])%bind_ok)%bind_ok & Hstep).
    rewrite walk_object in Hstep by (by rewrite ?is_object_store).
    apply bind_ok in Hstep
      as (old2 & Hold2 & (c2 & Hc2 & [= <-])%bind_ok).
    by exists old1, c1, old2, c2.
  - intros (old1 & c1 & old2 & c2 & Hold1 & Hc1 & Hold2 & Hc2 & ->).
    exists (store v (prop_key a) c1). rewrite Hold1. cbn [bind].
    rewrite Hc1. split; [done |].
    rewrite walk_object by (by rewrite ?is_object_store).
    rewrite Hold2. cbn [bind]. by rewrite Hc2.
Qed.

(** The loops of two entries whose paths part ways can run in either
    order. *)
Lemma walk_commute {H : Host} f1 f2 p q :
  independent p q = true →
  ordinary_path p = true → ordinary_path q = true →
  ∀ v, same_ok (let* v1 := walk f1 v p in walk f2 v1 q)
               (let* v2 := walk f2 v q in walk f1 v2 p).
Proof.
  revert q. induction p as [|a p IH]; intros [|b q] Hind Hp Hq v r; try done.
  apply ordinary_path_cons in Hp as [Ha%ordinary_exact Hp].
  apply ordinary_path_cons in Hq as [Hb%ordinary_exact Hq].
  destruct (nullish v) eqn:Hnull.
  { rewrite !(walk_nullish _ v) by done. cbn [bind].
    by rewrite !(walk_nullish _ v). }
  destruct (is_object v) eqn:Hobj.
  2: { split; intros (v1 & Hw & _)%bind_ok;
         apply walk_primitive in Hw as [? | ?]; congruence. }
  rewrite !walk_twice by done.
  destruct (independent_cons _ _ _ _ Hind) as [[<- Hrest] | [Hkey _]].
  - (* the common prefix: both entries go through the same slot *)
    set (k := prop_key a).
    assert (∀ old c, (∃ c1, slot f1 old p = Ok c1 ∧ slot f2 c1 q = Ok c)
               ↔ (∃ c2, slot f2 old q = Ok c2 ∧ slot f1 c2 p = Ok c)) as Hslots.
    { intros old c.
      destruct p as [|n1 p]; [done |]. destruct q as [|n2 q]; [done |].
      rewrite !(slot_cons _ old), (independent_fresh _ _ _ _ Hrest).
      specialize (IH (n2 :: q) Hrest Hp Hq (coalesce old (fresh n2)) c).
      rewrite !bind_ok in IH.
      assert (∀ f g n p' m q' c1,
        walk f (coalesce old (fresh n2)) (n :: p') = Ok c1 →
        slot g c1 (m :: q') = walk g c1 (m :: q')) as Hnorm.
      { intros f g n p' m q' c1 Hw. rewrite slot_cons, coalesce_object; [done |].
        eapply walk_result_object; [| exact Hw]. apply coalesce_not_nullish. }
      split; intros (c' & Hfirst & Hsecond).
      - rewrite (Hnorm _ _ _ _ _ _ _ Hfirst) in Hsecond.
        destruct (proj1 IH) as (c'' & Hfirst' & Hsecond'); [by exists c' |].
        exists c''. by rewrite (Hnorm _ _ _ _ _ _ _ Hfirst').
      - rewrite (Hnorm _ _ _ _ _ _ _ Hfirst) in Hsecond.
        destruct (proj2 IH) as (c'' & Hfirst' & Hsecond'); [by exists c' |].
        exists c''. by rewrite (Hnorm _ _ _ _ _ _ _ Hfirst'). }
    split.
    + intros (old & c1 & old2 & c2 & Hold & Hc1 & Hold2 & Hc2 & ->).
      rewrite get_store_eq in Hold2 by done. injection Hold2 as <-.
      destruct (proj1 (Hslots old c2)) as (c2' & ? & ?); [by exists c1 |].
      exists old, c2', c2', c2. rewrite get_store_eq by done.
      by rewrite !store_store.
    + intros (old & c2 & old1 & c1 & Hold & Hc2 & Hold1 & Hc1 & ->).
      rewrite get_store_eq in Hold1 by done. injection Hold1 as <-.
      destruct (proj2 (Hslots old c1)) as (c1' & ? & ?); [by exists c2 |].
      exists old, c1', c1', c1. rewrite get_store_eq by done.
      by rewrite !store_store.
  - (* the paths part: the entries write different slots of one object *)
    split.
    + intros (old1 & c1 & old2 & c2 & Hold1 & Hc1 & Hold2 & Hc2 & ->).
      rewrite get_store_ne in Hold2 by done.
      exists old2, c2, old1, c1. rewrite get_store_ne by done.
      by rewrite (store_comm v (prop_key a) (prop_key b)).
    + intros (old2 & c2 & old1 & c1 & Hold2 & Hc2 & Hold1 & Hc1 & ->).
      rewrite get_store_ne in Hold1 by done.
      exists old1, c1, old2, c2. rewrite get_store_ne by done.
      by rewrite (store_comm v (prop_key a) (prop_key b)).
Qed.

Lemma same_ok_bind {A B} (a b : result A) (k : A → result B) :
  same_ok a b → same_ok (bind a k) (bind b k).
Proof.
  intros Hab r. rewrite !bind_ok.
  split; intros (x & Hx & Hk); exists x; split; try done; by apply Hab.
Qed.

Lemma toRecord_swap_head {H : Host} JSON_parse e1 e2 rest record :
  independent (getPaths e1.1) (getPaths e2.1) = true →
  ordinary_path (getPaths e1.1) = true →
  ordinary_path (getPaths e2.1) = true →
  same_ok (toRecord JSON_parse (e1 :: e2 :: rest) record)
          (toRecord JSON_parse (e2 :: e1 :: rest) record).
Proof.
  destruct e1 as [k1 raw1], e2 as [k2 raw2]. simpl. intros Hind Hord1 Hord2.
  pose proof (walk_commute (merge (coerce JSON_parse raw1))
                (merge (coerce JSON_parse raw2)) _ _ Hind Hord1 Hord2 record)
    as Hcomm.
  apply (same_ok_bind _ _ (toRecord JSON_parse rest)) in Hcomm.
  intros r. specialize (Hcomm r). unfold setValue.
  destruct (walk (merge (coerce JSON_parse raw1)) record (getPaths k1));
    destruct (walk (merge (coerce JSON_parse raw2)) record (getPaths k2));
    exact Hcomm.
Qed.




(** Any reordering made of such exchanges builds the same record. *)
Lemma toRecord_reorder {H : Host} JSON_parse l l' :
  reorder l l' →
  ∀ record, same_ok (toRecord JSON_parse l record) (toRecord JSON_parse l' record).
Proof.
  induction 1 as [l | [k raw] l l' _ IH | e1 e2 l Hind Ho1 Ho2
                 | l1 l2 l3 _ IH1 _ IH2];
    intros record.
  - done.
  - simpl. intros r. rewrite !bind_ok.
    split; intros (x & Hx & Hk); exists x; split; try done; by apply IH.
  - exact (toRecord_swap_head JSON_parse e1 e2 l record Hind Ho1 Ho2).
  - intros r. rewrite (IH1 record r). exact (IH2 record r).
Qed.

(** * Further properties of the code *)

(** ** Keys without a path, targets without properties *)

(** X1: getPaths returns no segment for the empty key and for no other
    key. *)
Theorem getPaths_nil_iff (name : string) : getPaths name = [] ↔ name = "".
Proof.
  split; [| by intros ->].
  intros Hnil. destruct (decide (name = "")) as [| Hne]; [done |].
  by destruct (getPaths_nonempty name Hne).
Qed.

(** X2: setValue leaves the target as it is, and does not call valueFn, when
    the name is empty or the target is null or undefined. *)
Theorem setValue_noop {H : Host} (target : value) (name : string)
    (valueFn : value → result value) :
  name = "" ∨ nullish target = true →
  setValue target name valueFn = Ok target.
Proof.
  unfold setValue. intros [-> | Hnull]; [done | by apply walk_nullish].
Qed.

Lemma setValue_noop_witness :
  ("" = "" ∨ nullish (VObject {[ "a" := VStr "x" ]}) = true)
  ∧ setValue (H := standard) (VObject {[ "a" := VStr "x" ]}) ""
      (fun _ => Throw RangeError)
    = Ok (VObject {[ "a" := VStr "x" ]}).
Proof.
  assert ("" = "" ∨ nullish (VObject {[ "a" := VStr "x" ]}) = true) as Hnoop
    by by left.
  split; [exact Hnoop |].
  exact (setValue_noop (H := standard) _ "" (fun _ => Throw RangeError) Hnoop).
Defined.

(** X3: toRecord drops the entries whose key is empty: the payload without
    them builds the same record, or fails the same way. *)
Theorem toRecord_skips_empty_keys {H : Host} (JSON_parse : string → option value)
    (payload : list (string * entry_value)) (record : value) :
  toRecord JSON_parse (filter (fun e => e.1 ≠ "") payload) record
  = toRecord JSON_parse payload record.
Proof.
  revert record. induction payload as [|[key raw] payload IH]; intros record.
  - done.
  - destruct (decide (key = "")) as [-> | Hne].
    + rewrite filter_cons_False by (simpl; auto). simpl. apply IH.
    + rewrite filter_cons_True by done. simpl.
      destruct (setValue record key _); simpl; [apply IH | done].
Qed.

(** ** What setValue does to the record *)

(** X4: when setValue returns on an object and a name that is not empty and
    whose segments are ordinary, the slot the name addresses holds what
    valueFn returned for the value the slot held before, and the target is
    still an object. *)
Theorem setValue_lookup {H : Host} (target target' : value) (name : string)
    (valueFn : value → result value) :
  is_object target = true → name ≠ "" →
  ordinary_path (getPaths name) = true →
  setValue target name valueFn = Ok target' →
  is_object target' = true
  ∧ ∃ prev x,
      lookup_path target (getPaths name) = Ok prev
      ∧ valueFn prev = Ok x
      ∧ lookup_path target' (getPaths name) = Ok x.
Proof.
  intros Hobj Hname Hord Hset.
  exact (walk_lookup _ _ _ _ Hobj (getPaths_nonempty name Hname) Hord Hset).
Qed.

Lemma setValue_lookup_witness :
  is_object (VObject {[ "a" := VObject {[ "b" := array_of [VBool true] ]} ]}) = true
  ∧ "a.b[2]" ≠ ""
  ∧ ordinary_path (H := standard) (getPaths "a.b[2]") = true
  ∧ is_object
      (VObject {[ "a" := VObject {[ "b" :=
         VArray [Some (VBool true); None; Some (VStr "3")] ∅ ]} ]}) = true
  ∧ ∃ prev x,
      lookup_path (H := standard)
        (VObject {[ "a" := VObject {[ "b" := array_of [VBool true] ]} ]})
        (getPaths "a.b[2]") = Ok prev
      ∧ (fun _ : value => Ok (VStr "3")) prev = Ok x
      ∧ lookup_path (H := standard)
          (VObject {[ "a" := VObject {[ "b" :=
             VArray [Some (VBool true); None; Some (VStr "3")] ∅ ]} ]})
          (getPaths "a.b[2]") = Ok x.
Proof.
  assert ("a.b[2]" ≠ "") as Hname by done.
  assert (ordinary_path (H := standard) (getPaths "a.b[2]") = true) as Hord
    by by vm_compute.
  split; [done | split; [done | split; [done |]]].
  apply (setValue_lookup (H := standard)
    (VObject {[ "a" := VObject {[ "b" := array_of [VBool true] ]} ]})
    (VObject {[ "a" := VObject {[ "b" :=
       VArray [Some (VBool true); None; Some (VStr "3")] ∅ ]} ]})
    "a.b[2]" (fun _ => Ok (VStr "3")) eq_refl Hname Hord).
  by vm_compute.
Defined.

Lemma walk_frame {H : Host} f p :
  ∀ q v v', parts_ways p q = true →
            ordinary_path p = true → ordinary_path q = true →
            walk f v p = Ok v' →
            lookup_path v' q = lookup_path v q.
Proof.
  induction p as [|a p IH]; intros [|b q] v v' Hparts Hp Hq Hwalk; try done.
  apply ordinary_path_cons in Hp as [Ha%ordinary_exact Hp].
  apply ordinary_path_cons in Hq as [Hb%ordinary_exact Hq].
  destruct (walk_primitive _ _ _ _ _ Hwalk) as [Hobj | Hnull].
  2: { rewrite walk_nullish in Hwalk by done. by injection Hwalk as <-. }
  rewrite walk_object in Hwalk by done.
  apply bind_ok in Hwalk as (old & Hold & (c & Hslot & [= <-])%bind_ok).
  rewrite (lookup_path_cons v) by auto using object_not_nullish.
  rewrite (lookup_path_cons (store _ _ _));
    [| apply object_not_nullish; by rewrite is_object_store | done].
  simpl in Hparts.
  destruct (decide (prop_key a = prop_key b)) as [Heq | Hne].
  - rewrite <- Heq, get_store_eq, Hold by done. cbn [bind].
    destruct p as [|n p]; [done |]. rewrite slot_cons in Hslot.
    rewrite (IH q _ _ Hparts Hp Hq Hslot).
    apply lookup_path_coalesce; [done | by destruct q].
  - by rewrite get_store_ne.
Qed.

(** X5: setValue does not touch the slots of other paths: what a path
    addresses is the same before and after, when the segments of that path
    and of the one written are ordinary and the two go to different keys at
    the position where they first differ. *)
Theorem setValue_frame {H : Host} (target target' : value) (name other : string)
    (valueFn : value → result value) :
  parts_ways (getPaths name) (getPaths other) = true →
  ordinary_path (getPaths name) = true →
  ordinary_path (getPaths other) = true →
  setValue target name valueFn = Ok target' →
  lookup_path target' (getPaths other) = lookup_path target (getPaths other).
Proof. intros Hparts Hname Hother Hset. by eapply walk_frame. Qed.

Lemma setValue_frame_witness :
  parts_ways (getPaths "tasks[1].label") (getPaths "tasks[0].label") = true
  ∧ ordinary_path (H := standard) (getPaths "tasks[1].label") = true
  ∧ ordinary_path (H := standard) (getPaths "tasks[0].label") = true
  ∧ lookup_path (H := standard)
      (VObject {[ "tasks" := array_of [VObject {[ "label" := VStr "A" ]};
                                       VObject {[ "label" := VStr "B" ]}] ]})
      (getPaths "tasks[0].label")
    = lookup_path (H := standard)
        (VObject {[ "tasks" := array_of [VObject {[ "label" := VStr "A" ]}] ]})
        (getPaths "tasks[0].label").
Proof.
  assert (parts_ways (getPaths "tasks[1].label") (getPaths "tasks[0].label")
          = true) as Hparts by done.
  assert (ordinary_path (H := standard) (getPaths "tasks[1].label") = true)
    as Hord1 by by vm_compute.
  assert (ordinary_path (H := standard) (getPaths "tasks[0].label") = true)
    as Hord0 by by vm_compute.
  split; [exact Hparts | split; [exact Hord1 | split; [exact Hord0 |]]].
  apply (setValue_frame (H := standard) _ _ "tasks[1].label" "tasks[0].label"
           (fun _ => Ok (VStr "B")) Hparts Hord1 Hord0).
  by vm_compute.
Defined.

Lemma isArray_store v k x : isArray (store v k x) = isArray v.
Proof. destruct v; simpl; try done. by destruct (array_index k). Qed.

Lemma walk_container {H : Host} f key next rest c :
  ∀ v v', nullish v = false → ordinary_path (c ++ [key]) = true →
          walk f v (c ++ key :: next :: rest) = Ok v' →
          ∃ old s,
            lookup_path v (c ++ [key]) = Ok old
            ∧ lookup_path v' (c ++ [key])
              = Ok (store (coalesce old (fresh next)) (prop_key next) s)
            ∧ is_object (coalesce old (fresh next)) = true.
Proof.
  induction c as [|a c IH]; intros v v' Hnull Hord Hwalk.
  - simpl app in *. apply ordinary_path_cons in Hord as [Hk%ordinary_exact _].
    destruct (walk_primitive _ _ _ _ _ Hwalk) as [Hobj | ?]; [| congruence].
    rewrite walk_object in Hwalk by done.
    apply bind_ok in Hwalk as (old & Hold & (s0 & Hslot & [= <-])%bind_ok).
    rewrite slot_cons in Hslot.
    pose proof (coalesce_not_nullish old next) as Hnv.
    destruct (walk_primitive _ _ _ _ _ Hslot) as [Hobj' | ?]; [| congruence].
    rewrite walk_object in Hslot by eauto using walk_exact.
    apply bind_ok in Hslot as (old' & _ & (s & _ & [= <-])%bind_ok).
    exists old, s.
    rewrite (lookup_path_cons v) by done.
    rewrite (lookup_path_cons (store _ _ _));
      [| apply object_not_nullish; by rewrite is_object_store | done].
    by rewrite Hold, get_store_eq.
  - simpl app in *. apply ordinary_path_cons in Hord as [Ha%ordinary_exact Hord].
    destruct (walk_primitive _ _ _ _ _ Hwalk) as [Hobj | ?]; [| congruence].
    rewrite walk_object in Hwalk by done.
    apply bind_ok in Hwalk as (old & Hold & (s0 & Hslot & [= <-])%bind_ok).
    destruct (slot_nonempty f old (c ++ key :: next :: rest))
      as [n Hn]; [by destruct c |].
    rewrite Hn in Hslot.
    destruct (IH _ _ (coalesce_not_nullish _ _) Hord Hslot)
      as (old' & s & Hbefore & Hafter & Hkept).
    exists old', s.
    rewrite (lookup_path_cons v) by done.
    rewrite (lookup_path_cons (store _ _ _));
      [| apply object_not_nullish; by rewrite is_object_store | done].
    rewrite Hold, get_store_eq by done. cbn [bind].
    split; [| done].
    rewrite lookup_path_coalesce in Hbefore; [done | done | by destruct c].
Qed.

(** X6: where setValue returns, the container it leaves under a segment
    that is not the last one is the value that was there before, or, where
    undefined or null was there, a new empty array when the next segment is
    a number and a new empty object otherwise, with the slot of the next
    segment assigned and nothing else changed.  The segments up to that one
    are ordinary. *)
Theorem setValue_container {H : Host} (target target' : value) (name : string)
    (valueFn : value → result value)
    (before rest : list pathseg) (key next : pathseg) :
  nullish target = false →
  getPaths name = before ++ key :: next :: rest →
  ordinary_path (before ++ [key]) = true →
  setValue target name valueFn = Ok target' →
  ∃ old new s,
    lookup_path target (before ++ [key]) = Ok old
    ∧ lookup_path target' (before ++ [key]) = Ok new
    ∧ new = store (coalesce old (fresh next)) (prop_key next) s
    ∧ is_object new = true
    ∧ isArray new = if nullish old then is_number next else isArray old.
Proof.
  intros Hnull Hpaths Hord Hset. unfold setValue in Hset.
  rewrite Hpaths in Hset.
  destruct (walk_container _ _ _ _ _ _ _ Hnull Hord Hset)
    as (old & s & Hbefore & Hafter & Hkept).
  exists old, (store (coalesce old (fresh next)) (prop_key next) s), s.
  repeat split; try done.
  - by rewrite is_object_store.
  - rewrite isArray_store. unfold coalesce.
    destruct (nullish old); [| done].
    unfold fresh. by destruct (is_number next).
Qed.

Lemma setValue_container_witness :
  nullish (VObject ∅) = false
  ∧ getPaths "tasks[0].label" = [] ++ PName "tasks" :: PIndex 0 :: [PName "label"]
  ∧ ordinary_path (H := standard) ([] ++ [PName "tasks"]) = true
  ∧ ∃ old new s,
      lookup_path (H := standard) (VObject ∅) ([] ++ [PName "tasks"]) = Ok old
      ∧ lookup_path (H := standard)
          (VObject {[ "tasks" := array_of [VObject {[ "label" := VStr "A" ]}] ]})
          ([] ++ [PName "tasks"]) = Ok new
      ∧ new = store (coalesce old (fresh (PIndex 0))) (prop_key (PIndex 0)) s
      ∧ is_object new = true
      ∧ isArray new = if nullish old then is_number (PIndex 0) else isArray old.
Proof.
  assert (ordinary_path (H := standard) ([] ++ [PName "tasks"]) = true) as Hord
    by by vm_compute.
  split; [done | split; [done | split; [exact Hord |]]].
  apply (setValue_container (H := standard) (VObject ∅) _ "tasks[0].label"
           (fun _ => Ok (VStr "A")) [] [PName "label"] (PName "tasks")
           (PIndex 0) eq_refl eq_refl Hord).
  by vm_compute.
Defined.

(** ** Failure *)

Lemma set_primitive {H : Host} v k x y :
  is_primitive v = true → get v k = Ok x → set v k y = Throw TypeError.
Proof.
  unfold get, set. intros Hv.
  destruct (kind_of v) as [kd|]; [| done].
  assert (is_object v = false) as -> by by destruct v.
  by destruct (own v k), (member_of kd k) as [[]|].
Qed.

Lemma primitive_not_nullish v : is_primitive v = true → nullish v = false.
Proof. by destruct v. Qed.

(** The loop throws at a primitive that is not its last stop. *)
Lemma walk_into_primitive {H : Host} f v k n rest x :
  is_primitive v = true → exact k = true → get v (prop_key k) = Ok x →
  walk f v (k :: n :: rest) = Throw TypeError.
Proof.
  intros Hv Hk Hget. rewrite walk_cons, (primitive_not_nullish v Hv), Hk, Hget.
  cbn [negb bind]. by rewrite (set_primitive v _ x).
Qed.

Lemma merge_not_array next prev :
  isArray prev = false → ∃ x, merge next prev = Ok x.
Proof.
  intros Harr. unfold merge.
  destruct (negb (truthy prev)); [by eexists |].
  destruct (negb (truthy next)); [by eexists |].
  destruct prev; try done; by eexists.
Qed.

Lemma get_plain_primitive {H : Host} v k :
  is_primitive v = true → plain_on v k = true →
  ∃ x, get v (prop_key k) = Ok x ∧ isArray x = false.
Proof.
  intros Hv [_ Hk]%andb_true_iff. unfold get.
  destruct (kind_of v) as [kd|]; [| done].
  destruct (own v (prop_key k)) as [x|] eqn:Hown.
  - exists x. split; [done |]. destruct v; try done. simpl in Hown.
    destruct (array_index _); [| done].
    destruct (String.get _ _); [| done]. by injection Hown as <-.
  - destruct (member_of kd (prop_key k)); [done |]. by exists VUndefined.
Qed.

Lemma walk_on_primitive {H : Host} next v k rest :
  is_primitive v = true → plain_on v k = true →
  walk (merge next) v (k :: rest) = Throw TypeError.
Proof.
  intros Hv Hk. destruct (get_plain_primitive v k Hv Hk) as (x & Hget & Harr).
  apply andb_true_iff in Hk as [Hexact _].
  destruct rest as [|n rest]; [| by eapply walk_into_primitive].
  rewrite walk_cons, (primitive_not_nullish v Hv), Hexact, Hget. cbn [negb bind].
  destruct (merge_not_array next x Harr) as [y ->]. cbn [bind].
  by rewrite (set_primitive v _ x).
Qed.

Lemma walk_through_primitive {H : Host} next k rest c prim :
  ∀ v, is_object v = true → c ≠ [] →
       lookup_path v c = Ok prim → is_primitive prim = true →
       plain_on prim k = true →
       walk (merge next) v (c ++ k :: rest) = Throw TypeError.
Proof.
  induction c as [|a c IH]; intros v Hobj Hc Hlook Hprim Hk; [done |].
  simpl app. cbn [lookup_path] in Hlook.
  rewrite (object_not_nullish v Hobj) in Hlook.
  destruct (exact a) eqn:Ha; [| done]. cbn [negb] in Hlook.
  rewrite walk_object by done.
  destruct (get v (prop_key a)) as [old | e]; [| done]. cbn [bind] in Hlook |- *.
  destruct (slot_nonempty (merge next) old (c ++ k :: rest))
    as [n ->]; [by destruct c |].
  destruct c as [|b c].
  - injection Hlook as ->. simpl app.
    unfold coalesce. rewrite (primitive_not_nullish prim Hprim).
    by rewrite walk_on_primitive.
  - destruct (nullish old) eqn:Hnull.
    { rewrite lookup_path_nullish in Hlook by done.
      injection Hlook as <-. done. }
    assert (coalesce old (fresh n) = old) as ->
      by (unfold coalesce; by rewrite Hnull).
    destruct (is_object old) eqn:Hold.
    + by rewrite (IH old).
    + cbn [lookup_path] in Hlook. rewrite Hnull in Hlook.
      destruct (exact b) eqn:Hb; [| done]. cbn [negb] in Hlook.
      destruct (get old (prop_key b)) as [x | e] eqn:Hget; [| done].
      assert (is_primitive old = true) as Hp.
      { destruct old; try done. }
      simpl app. destruct (c ++ k :: rest) as [|n' rest'] eqn:Hrest;
        [by destruct c |].
      by rewrite (walk_into_primitive _ old b n' rest' x).
Qed.

(** X7: an entry whose key leads through a slot that holds a string, a
    number or a boolean makes toRecord throw a TypeError, whatever its value
    and whatever follows it.  The segment that follows that slot is known
    exactly and names no member of the primitive. *)
Theorem toRecord_through_primitive {H : Host} (JSON_parse : string → option value)
    (record prim : value) (key : string) (raw : entry_value)
    (payload : list (string * entry_value))
    (before rest : list pathseg) (last : pathseg) :
  is_object record = true →
  getPaths key = before ++ last :: rest → before ≠ [] →
  lookup_path record before = Ok prim → is_primitive prim = true →
  plain_on prim last = true →
  toRecord JSON_parse ((key, raw) :: payload) record = Throw TypeError.
Proof.
  intros Hobj Hpaths Hbefore Hlook Hprim Hlast. simpl. unfold setValue.
  by rewrite Hpaths, (walk_through_primitive _ _ _ _ prim).
Qed.

Lemma toRecord_through_primitive_witness :
  is_object (VObject {[ "user" := VStr "john" ]}) = true
  ∧ getPaths "user.name" = [PName "user"] ++ PName "name" :: []
  ∧ [PName "user"] ≠ []
  ∧ lookup_path (H := standard) (VObject {[ "user" := VStr "john" ]})
      [PName "user"] = Ok (VStr "john")
  ∧ is_primitive (VStr "john") = true
  ∧ plain_on (H := standard) (VStr "john") (PName "name") = true
  ∧ toRecord (H := standard) json_literals
      [("user.name", EString "x"); ("age", EString "0")]
      (VObject {[ "user" := VStr "john" ]})
    = Throw TypeError.
Proof.
  assert ([PName "user"] ≠ []) as Hne by done.
  assert (lookup_path (H := standard) (VObject {[ "user" := VStr "john" ]})
            [PName "user"] = Ok (VStr "john")) as Hlook by by vm_compute.
  assert (plain_on (H := standard) (VStr "john") (PName "name") = true)
    as Hplain by by vm_compute.
  repeat (split; [done |]).
  exact (toRecord_through_primitive (H := standard) json_literals
           (VObject {[ "user" := VStr "john" ]}) (VStr "john") "user.name"
           (EString "x") [("age", EString "0")] [PName "user"] []
           (PName "name") eq_refl eq_refl Hne Hlook eq_refl Hplain).
Defined.

(** ** Any number of values under one key *)

Lemma merged_cons v vs prev :
  merged (v :: vs) prev = let* x := merge v prev in merged vs x.
Proof.
  unfold merged. simpl. destruct (merge v prev); [done |]. apply merged_throw.
Qed.

Lemma merge_falsy_next next prev :
  truthy prev = true → truthy next = false → merge next prev = Ok prev.
Proof. intros Hp Hn. unfold merge. by rewrite Hp, Hn. Qed.

Lemma merge_falsy_prev next prev : truthy prev = false → merge next prev = Ok next.
Proof. intros Hp. unfold merge. by rewrite Hp. Qed.

Lemma merged_into_array acc vs :
  Forall (fun v => isArray v = false) vs →
  (N.of_nat (length acc + length (filter (fun v => truthy v = true) vs))
   ≤ 4294967295)%N →
  merged vs (array_of acc)
  = Ok (array_of (acc ++ filter (fun v => truthy v = true) vs)).
Proof.
  intros Hvs. revert acc. induction Hvs as [|v vs Hv _ IH]; intros acc Hlen.
  - simpl. by rewrite app_nil_r.
  - rewrite merged_cons. destruct (truthy v) eqn:Htruthy.
    + rewrite filter_cons_True in * by done.
      assert (merge v (array_of acc) = Ok (array_of (acc ++ [v]))) as ->.
      { unfold merge. rewrite Htruthy. simpl. unfold concat.
        destruct v; try done;
          (rewrite (proj2 (N.leb_le _ _));
           [unfold array_of; by rewrite fmap_app
           | rewrite length_fmap; simpl in *; lia]). }
      simpl. rewrite IH.
      * by rewrite <- app_assoc.
      * rewrite length_app. simpl in *. lia.
    + rewrite filter_cons_False in * by congruence.
      rewrite merge_falsy_next by done. simpl. by apply IH.
Qed.

Lemma merged_into_scalar t vs :
  truthy t = true → isArray t = false →
  Forall (fun v => isArray v = false) vs →
  (N.of_nat (S (length (filter (fun v => truthy v = true) vs))) ≤ 4294967295)%N →
  merged vs t
  = Ok match filter (fun v => truthy v = true) vs with
       | [] => t
       | ts => array_of (t :: ts)
       end.
Proof.
  intros Ht Harr Hvs. induction Hvs as [|v vs Hv Hvs IH]; intros Hlen; [done |].
  rewrite merged_cons. destruct (truthy v) eqn:Htruthy.
  - rewrite filter_cons_True in * by done.
    assert (merge v t = Ok (array_of [t; v])) as ->.
    { unfold merge. rewrite Ht, Htruthy. simpl. by destruct t. }
    simpl bind. rewrite merged_into_array; [done | done |].
    simpl in *. lia.
  - rewrite filter_cons_False in * by congruence.
    rewrite merge_falsy_next by done. simpl. by apply IH.
Qed.

Lemma last_cons (v d : value) vs : List.last (v :: vs) d = List.last vs v.
Proof. revert v. induction vs as [|w vs IH]; intros v; [done |]. simpl in *. by destruct vs. Qed.

Lemma merged_into_falsy p vs :
  truthy p = false →
  Forall (fun v => isArray v = false) vs →
  (N.of_nat (length (filter (fun v => truthy v = true) vs)) ≤ 4294967295)%N →
  merged vs p
  = Ok match filter (fun v => truthy v = true) vs with
       | [] => List.last vs p
       | [t] => t
       | ts => array_of ts
       end.
Proof.
  intros Hp Hvs. revert p Hp.
  induction Hvs as [|v vs Hv Hvs IH]; intros p Hp Hlen; [done |].
  rewrite merged_cons, merge_falsy_prev by done. simpl bind.
  destruct (truthy v) eqn:Htruthy.
  - rewrite filter_cons_True in * by done.
    rewrite merged_into_scalar by (simpl in *; done || lia).
    by destruct (filter _ vs).
  - rewrite filter_cons_False in * by congruence.
    rewrite IH by done. by rewrite last_cons.
Qed.

(** X8: values that are not arrays, given under one key whose segments are
    ordinary to an empty record any number of times, leave in the slot
    their truthy ones in order: the array of them when they are two or
    more, the one value when there is one, and the last value given when
    none is truthy. *)
Theorem toRecord_repeated_key {H : Host} (JSON_parse : string → option value)
    (key : string) (raws : list entry_value) :
  key ≠ "" → ordinary_path (getPaths key) = true →
  Forall (fun raw => isArray (coerce JSON_parse raw) = false) raws →
  (N.of_nat (length raws) ≤ 4294967295)%N →
  ∃ record,
    toRecord JSON_parse (pair key <$> raws) (VObject ∅) = Ok record
    ∧ lookup_path record (getPaths key)
      = Ok (settled (coerce JSON_parse <$> raws)).
Proof.
  intros Hkey Hord Hraws Hlen. apply toRecord_one_key; [done | done |].
  unfold settled. apply merged_into_falsy; [done | |].
  - by apply Forall_fmap.
  - pose proof (length_filter (fun v => truthy v = true)
                  (coerce JSON_parse <$> raws)) as Hle.
    rewrite length_fmap in Hle. lia.
Qed.

Lemma toRecord_repeated_key_witness :
  "hobbies" ≠ ""
  ∧ ordinary_path (H := standard) (getPaths "hobbies") = true
  ∧ Forall (fun raw => isArray (coerce json_literals raw) = false)
      [EString "false"; EString "programming"; EString ""; EString "basketball"]
  ∧ (N.of_nat (length
       [EString "false"; EString "programming"; EString ""; EString "basketball"])
     ≤ 4294967295)%N
  ∧ ∃ record,
      toRecord (H := standard) json_literals
        (pair "hobbies" <$>
           [EString "false"; EString "programming"; EString "";
            EString "basketball"]) (VObject ∅)
      = Ok record
      ∧ lookup_path (H := standard) record (getPaths "hobbies")
        = Ok (settled (coerce json_literals <$>
                [EString "false"; EString "programming"; EString "";
                 EString "basketball"])).
Proof.
  assert ("hobbies" ≠ "") as H1 by done.
  assert (ordinary_path (H := standard) (getPaths "hobbies") = true) as Hord
    by by vm_compute.
  assert (Forall (fun raw => isArray (coerce json_literals raw) = false)
    [EString "false"; EString "programming"; EString ""; EString "basketball"])
    as H2 by (repeat constructor).
  assert ((N.of_nat (length
       [EString "false"; EString "programming"; EString ""; EString "basketball"])
     ≤ 4294967295)%N) as H3 by (simpl; lia).
  split; [exact H1 | split; [exact Hord | split; [exact H2 | split; [exact H3 |]]]].
  exact (toRecord_repeated_key (H := standard) json_literals "hobbies" _
           H1 Hord H2 H3).
Defined.

Example settled_hobbies :
  settled (coerce json_literals <$>
    [EString "false"; EString "programming"; EString ""; EString "basketball"])
  = array_of [VStr "programming"; VStr "basketball"].
Proof. reflexivity. Qed.

(** ** Reading back what formatPaths writes *)

Lemma to_uint_normal n : Decimal.unorm (N.to_uint n) = N.to_uint n.
Proof. by rewrite <- Unsigned.to_of, Unsigned.of_to. Qed.

Lemma to_uint_nonnil n : N.to_uint n ≠ Decimal.Nil.
Proof. rewrite <- to_uint_normal. apply DecimalFacts.unorm_nonnil. Qed.

Lemma number_to_string_uint n :
  number_to_string n = NilEmpty.string_of_uint (N.to_uint n).
Proof.
  unfold number_to_string, NilZero.string_of_uint.
  pose proof (to_uint_nonnil n). by destruct (N.to_uint n).
Qed.

Lemma Number_number_to_string n : Number (number_to_string n) = n.
Proof.
  unfold Number. rewrite number_to_string_uint, NilEmpty.usu.
  apply Unsigned.of_to.
Qed.

Lemma string_of_uint_digits u :
  string_forall is_digit (NilEmpty.string_of_uint u) = true.
Proof. induction u; simpl; auto. Qed.

Lemma number_to_string_canonical n :
  (n ≤ 9007199254740992)%N → canonical (number_to_string n) = true.
Proof.
  intros Hn. unfold canonical, digits.
  rewrite Number_number_to_string, (proj2 (N.leb_le _ _) Hn), andb_true_r.
  rewrite number_to_string_uint, string_of_uint_digits, andb_true_r.
  pose proof (to_uint_nonnil n) as Hnil.
  pose proof (to_uint_normal n) as Hnorm.
  destruct (N.to_uint n) as [|u|u|u|u|u|u|u|u|u|u]; try done.
  rewrite DecimalFacts.unorm_D0 in Hnorm. unfold Decimal.unorm in Hnorm.
  destruct (Decimal.nzhead u) eqn:Hhead;
    try (by destruct (DecimalFacts.nzhead_nonzero u u); congruence).
  by injection Hnorm as <-.
Qed.

Lemma token_first t : token false t → token true t.
Proof.
  intros [n ? ? ? | n d ? ? | d ? ?];
    [by apply token_field | by apply token_named_index | done].
Qed.

Lemma field_name_bare n :
  field_name n = true → n ≠ "" ∧ no_dot n = true ∧ bare_field n = true.
Proof.
  intros Hn. split; [by apply field_name_nonempty |].
  apply field_name_word in Hn.
  split; [by apply word_no_dot |].
  revert Hn. apply string_forall_impl. intros c.
  by destruct c as [[] [] [] [] [] [] [] []].
Qed.

(** The tokens of a path that begins with a name, and what getPaths reads
    in them. *)
Lemma tokens_of_named p :
  (writable false p = true →
   Forall (token false) (tokens_of p)
   ∧ flat_map token_paths (tokens_of p) = p)
  ∧ ∀ a, writable false (a :: p) = true →
         Forall (token false) (tokens_of (a :: p))
         ∧ flat_map token_paths (tokens_of (a :: p)) = a :: p.
Proof.
  induction p as [|b p [IHp IHbp]].
  - split; [done |]. intros [n | i]; [| done]. simpl.
    rewrite andb_true_r. intros Hn.
    destruct (field_name_bare n Hn) as (? & ? & ?).
    split; [by repeat constructor |].
    by rewrite token_paths_bare.
  - split; [apply IHbp |].
    intros [n | i]; [| done].
    intros [Hn Hrest]%andb_true_iff.
    destruct (field_name_bare n Hn) as (? & ? & ?).
    destruct b as [m | i].
    + destruct (IHbp (PName m) Hrest) as [Htok Hread].
      change (tokens_of (PName n :: PName m :: p))
        with (n :: tokens_of (PName m :: p)).
      split; [constructor; [by apply token_field | done] |].
      cbn [flat_map]. by rewrite token_paths_bare, Hread.
    + simpl in Hrest.
      apply andb_true_iff in Hrest as [Hi%N.leb_le Hrest].
      destruct (IHp Hrest) as [Htok Hread].
      change (tokens_of (PName n :: PIndex i :: p))
        with ((n +:+ "[" +:+ number_to_string i +:+ "]") :: tokens_of p).
      pose proof (number_to_string_canonical i Hi) as Hcanon.
      split; [constructor; [by apply token_named_index | done] |].
      cbn [flat_map].
      rewrite token_paths_named by auto using canonical_digits.
      by rewrite Number_number_to_string, Hread.
Qed.

(** X9: getPaths reads back the path formatPaths has written, for a path
    whose names are made of word characters, whose indices are at most 2^53
    and in which every index stands first or right after a name. *)
Theorem getPaths_formatPaths (p : list pathseg) :
  writable true p = true → getPaths (formatPaths p) = p.
Proof.
  intros Hp.
  assert (∃ t ts, token true t ∧ Forall (token false) ts
                  ∧ flat_map token_paths (t :: ts) = p ∨ p = [])
    as (t & ts & [(Ht & Hts & Hread) | ->]); [| | done].
  { destruct p as [|[n | i] p]; [exists "", []; by right | |].
    - destruct (proj2 (tokens_of_named p) (PName n) Hp) as [Htok Hread].
      destruct (tokens_of (PName n :: p)) as [|t ts]; [done |].
      exists t, ts. left. inversion Htok as [|? ? Ht Hts]; subst.
      auto using token_first.
    - simpl in Hp. apply andb_true_iff in Hp as [Hi%N.leb_le Hp].
      destruct (proj1 (tokens_of_named p) Hp) as [Htok Hread].
      exists ("[" +:+ number_to_string i +:+ "]"), (tokens_of p). left.
      pose proof (number_to_string_canonical i Hi) as Hcanon.
      split; [by apply token_index |]. split; [done |].
      cbn [flat_map].
      rewrite token_paths_index by auto using canonical_digits.
      by rewrite Number_number_to_string, Hread. }
  rewrite <- Hread at 1. unfold formatPaths. cbn [flat_map].
  rewrite fold_left_app, format_first by done.
  rewrite format_rest; [| done | by eapply token_nonempty].
  rewrite getPaths_tokens.
  2: { pose proof (token_nonempty _ _ Ht). by destruct t. }
  rewrite split_dot_dotted; [done | by eapply token_no_dot |].
  eapply List.Forall_impl; [| exact Hts]. intros x. apply token_no_dot.
Qed.

Lemma getPaths_formatPaths_witness :
  writable true [PName "foo"; PIndex 0; PName "content"] = true
  ∧ getPaths (formatPaths [PName "foo"; PIndex 0; PName "content"])
    = [PName "foo"; PIndex 0; PName "content"].
Proof.
  assert (writable true [PName "foo"; PIndex 0; PName "content"] = true)
    as H by done.
  split; [exact H |].
  exact (getPaths_formatPaths [PName "foo"; PIndex 0; PName "content"] H).
Defined.

(** Two indices in a row are not read back: the second one is lost. *)
Example getPaths_formatPaths_indices :
  getPaths (formatPaths [PName "a"; PIndex 0; PIndex 1]) = [PName "a"; PIndex 0].
Proof. reflexivity. Qed.

(** ** Dots separate levels *)

Lemma split_dot_no_dot s : Forall (fun t => no_dot t = true) (split_dot s).
Proof.
  induction s as [|c s IH]; [by repeat constructor |]. simpl.
  destruct (Ascii.eqb c ".") eqn:Hc; [by constructor |].
  destruct (split_dot s) as [|t ts].
  { constructor; [unfold no_dot; simpl; by rewrite Hc | constructor]. }
  inversion IH as [|? ? Ht Hts]; subst.
  constructor; [| done]. unfold no_dot in *. simpl. by rewrite Hc, Ht.
Qed.

(** X10: no name that getPaths returns holds a dot. *)
Theorem getPaths_no_dot (name n : string) :
  PName n ∈ getPaths name → no_dot n = true.
Proof.
  unfold getPaths. destruct (decide (name = "")); [by intros ?%elem_of_nil |].
  rewrite list_elem_of_In, in_flat_map.
  intros (t & Ht & Hn).
  pose proof (split_dot_no_dot name) as Hall.
  rewrite List.Forall_forall in Hall. specialize (Hall t Ht).
  unfold token_paths in Hn.
  destruct (pattern_exec t) as [[m1 m2]|] eqn:Hm.
  - apply pattern_exec_sound in Hm as (pre & post & _ & Hw & _).
    destruct (decide (m1 = "")).
    + by destruct Hn.
    + destruct Hn as [[= <-] | [? | []]]; [by apply word_no_dot | done].
  - by destruct Hn as [[= <-] | []].
Qed.

Lemma getPaths_no_dot_witness :
  PName "b" ∈ getPaths "a.x-b[0]" ∧ no_dot "b" = true.
Proof.
  assert (PName "b" ∈ getPaths "a.x-b[0]") as H by (right; left).
  split; [exact H |].
  exact (getPaths_no_dot "a.x-b[0]" "b" H).
Defined.

(** ** Entries under other keys *)

(** X11: toRecord returns an object whenever it starts from one. *)
Theorem toRecord_object {H : Host} (JSON_parse : string → option value)
    (payload : list (string * entry_value)) (record record' : value) :
  is_object record = true →
  toRecord JSON_parse payload record = Ok record' →
  is_object record' = true.
Proof.
  revert record. induction payload as [|[key raw] payload IH]; intros record Hobj.
  - by intros [= <-].
  - simpl. intros (r1 & Hset & Hrest)%bind_ok.
    apply (IH r1); [| done].
    destruct (decide (key = "")) as [-> | Hne].
    + by injection Hset as <-.
    + unfold setValue in Hset.
      pose proof (getPaths_nonempty key Hne) as Hpaths.
      destruct (getPaths key) as [|k rest]; [done |].
      eapply walk_result_object; [| exact Hset].
      by apply object_not_nullish.
Qed.

Lemma toRecord_object_witness :
  is_object (VObject ∅) = true
  ∧ is_object (VObject {[ "a" := VArray [Some (VStr "x")] ∅ ]}) = true.
Proof.
  split; [done |].
  apply (toRecord_object (H := standard) json_literals [("a[0]", EString "x")]
           (VObject ∅) _ eq_refl).
  by vm_compute.
Defined.

(** X12: what a key holds in the record does not depend on the entries whose
    keys go elsewhere: a payload made of entries whose paths part from the
    path of that key leaves its slot as it was, all the paths being made of
    ordinary segments. *)
Theorem toRecord_frame {H : Host} (JSON_parse : string → option value)
    (payload : list (string * entry_value)) (record record' : value)
    (other : string) :
  ordinary_path (getPaths other) = true →
  Forall (fun e => parts_ways (getPaths e.1) (getPaths other) = true
                   ∧ ordinary_path (getPaths e.1) = true) payload →
  toRecord JSON_parse payload record = Ok record' →
  lookup_path record' (getPaths other) = lookup_path record (getPaths other).
Proof.
  intros Hother Hall. revert record.
  induction Hall as [|[key raw] payload [Hparts Hord] _ IH]; intros record.
  - by intros [= <-].
  - simpl. intros (r1 & Hset & Hrest)%bind_ok.
    rewrite (IH _ Hrest). by eapply walk_frame.
Qed.

Lemma toRecord_frame_witness :
  ordinary_path (H := standard) (getPaths "user.name") = true
  ∧ Forall (fun e => parts_ways (getPaths e.1) (getPaths "user.name") = true
                     ∧ ordinary_path (H := standard) (getPaths e.1) = true)
      [("user.age", EString "0"); ("tags", EString "a")]
  ∧ lookup_path (H := standard)
      (VObject {[ "user" := VObject {[ "name" := VStr "john"; "age" := VNum 0 ]};
                  "tags" := VStr "a" ]})
      (getPaths "user.name")
    = lookup_path (H := standard)
        (VObject {[ "user" := VObject {[ "name" := VStr "john" ]} ]})
        (getPaths "user.name").
Proof.
  assert (ordinary_path (H := standard) (getPaths "user.name") = true)
    as Hother by by vm_compute.
  assert (Forall (fun e => parts_ways (getPaths e.1) (getPaths "user.name") = true
                           ∧ ordinary_path (H := standard) (getPaths e.1) = true)
    [("user.age", EString "0"); ("tags", EString "a")]) as Hall.
  { repeat constructor; by vm_compute. }
  split; [exact Hother | split; [exact Hall |]].
  apply (toRecord_frame (H := standard) json_literals _ _ _ "user.name"
           Hother Hall).
  by vm_compute.
Defined.

(** ** The transformer zt.findBy *)










Example findBy_doc :
  zt.findBy (H := standard) "name"
    [VObject {[ "id" := VStr "1"; "name" := VStr "Christine" ]};
     VObject {[ "id" := VStr "2"; "name" := VStr "Danielle" ]};
     VObject {[ "id" := VStr "3"; "name" := VStr "Tom" ]}]
    (zt.IString "Tom") []
  = Ok (zt.Parsed (VObject {[ "id" := VStr "3"; "name" := VStr "Tom" ]}), []).
Proof. vm_compute. reflexivity. Qed.

(** An undefined value matches the first item that lacks the key. *)
Example findBy_undefined :
  zt.findBy (H := standard) "name"
    [VObject {[ "name" := VStr "Christine" ]}; VObject {[ "id" := VStr "2" ]}]
    zt.IUndefined []
  = Ok (zt.Parsed (VObject {[ "id" := VStr "2" ]}), []).
Proof. vm_compute. reflexivity. Qed.

(** A key that names a special member of an item leaves the model. *)
Example findBy_length :
  zt.findBy (H := standard) "length" [VStr "abc"] zt.IUndefined []
  = Throw Unmodelled.
Proof. vm_compute. reflexivity. Qed.

(** ** The request adapter and the two others *)

(** X15: for a request that carries a multipart form, parseRequestAsync is
    parseFormDataAsync of the request when its URL has no query parameter,
    and parseQueryAsync of the request when its form has no entry. *)
Theorem parseRequestAsync_special {H : Host} (JSON_parse : string → option value)
    (searchParams : string → result (list (string * string)))
    (Output : Type) (schema_parse : value → result Output) (record0 : value)
    (request : Request) :
  containsFormData request = true →
  (searchParams (url request) = Ok [] →
   parseRequestAsync JSON_parse searchParams Output schema_parse record0 request
   = parseFormDataAsync JSON_parse Output schema_parse record0
       (FormRequest request))
  ∧ (formData request = Ok [] →
     parseRequestAsync JSON_parse searchParams Output schema_parse record0 request
     = parseQueryAsync JSON_parse searchParams Output schema_parse record0
         (QueryRequest request)).
Proof.
  intros Hform. unfold parseRequestAsync. rewrite Hform. simpl. split.
  - intros ->. unfold parseFormDataAsync.
    destruct (formData request); simpl; [by rewrite app_nil_r | done].
  - intros ->. simpl. unfold parseQueryAsync, parseFormDataAsync.
    by destruct (searchParams (url request)).
Qed.

Lemma parseRequestAsync_special_witness :
  containsFormData
    {| url := "https://example.com";
       contentType := Some "multipart/form-data; boundary=x";
       formData := Ok [("username", EString "john")] |} = true
  ∧ parseRequestAsync (H := standard) json_literals (fun _ => Ok []) value Ok
      (VObject ∅)
      {| url := "https://example.com";
         contentType := Some "multipart/form-data; boundary=x";
         formData := Ok [("username", EString "john")] |}
    = parseFormDataAsync (H := standard) json_literals value Ok (VObject ∅)
        (FormRequest
           {| url := "https://example.com";
              contentType := Some "multipart/form-data; boundary=x";
              formData := Ok [("username", EString "john")] |}).
Proof.
  split; [done |].
  by apply (parseRequestAsync_special (H := standard) json_literals
              (fun _ => Ok []) value Ok (VObject ∅)).
Defined.

(** X16: for a request whose Content-Type does not announce a multipart
    form, parseRequestAsync never reads the body: its result is the same
    whatever request.formData() would give. *)
Theorem parseRequestAsync_ignores_body {H : Host}
    (JSON_parse : string → option value)
    (searchParams : string → result (list (string * string)))
    (Output : Type) (schema_parse : value → result Output) (record0 : value)
    (request : Request) (body : result (list (string * entry_value))) :
  containsFormData request = false →
  parseRequestAsync JSON_parse searchParams Output schema_parse record0
    {| url := url request; contentType := contentType request; formData := body |}
  = parseRequestAsync JSON_parse searchParams Output schema_parse record0 request.
Proof.
  intros Hno. unfold parseRequestAsync.
  change (containsFormData {| url := url request;
                              contentType := contentType request;
                              formData := body |})
    with (containsFormData request).
  by rewrite Hno.
Qed.

Lemma parseRequestAsync_ignores_body_witness :
  containsFormData
    {| url := "https://example.com?q=photos";
       contentType := Some "application/x-www-form-urlencoded";
       formData := Throw TypeError |} = false
  ∧ parseRequestAsync (H := standard) json_literals
      (fun _ => Ok [("q", "photos")]) value Ok (VObject ∅)
      {| url := "https://example.com?q=photos";
         contentType := Some "application/x-www-form-urlencoded";
         formData := Ok [("q", EString "videos")] |}
    = parseRequestAsync (H := standard) json_literals
        (fun _ => Ok [("q", "photos")]) value Ok (VObject ∅)
        {| url := "https://example.com?q=photos";
           contentType := Some "application/x-www-form-urlencoded";
           formData := Throw TypeError |}.
Proof.
  split; [done |].
  exact (parseRequestAsync_ignores_body (H := standard) json_literals
           (fun _ => Ok [("q", "photos")]) value Ok (VObject ∅)
           {| url := "https://example.com?q=photos";
              contentType := Some "application/x-www-form-urlencoded";
              formData := Throw TypeError |}
           (Ok [("q", EString "videos")]) eq_refl).
Defined.

(** ** A flat payload *)



